(** * sider: a shallow embedding of [server/server.go]

    The development follows the Go source function by function:
    the wire-protocol parser ([readBufferedCommand],
    [readBufferedTelnetCommand], [parseArgsFromTelnetLine]), the buffered
    reader ([CommandReader], [ReadCommand]), the command table
    ([register], [commandTable]) and the two dispatch loops
    ([handleConn] for live traffic, the replay loop of [Start]).

    Conventions.
    - A Go [[]byte] is a [list ascii]; a Go [string] is a [string]; the
      conversions [string(b)] and [[]byte(s)] are [string_of_list_ascii]
      and [list_ascii_of_string].
    - Go's [int] and [int64] are 64-bit two's complement integers and
      [uint64] is a 64-bit unsigned integer (a 64-bit target); they are
      values of [Z] and every conversion or addition that can leave the
      range is written with [wrap_int] or [wrap_uint].
    - A computation that can hit a run-time panic (index or slice out of
      range) lives in [exec]. Loops that are not structural take a fuel
      argument and answer [OutOfFuel] when it is used up; the totality
      lemmas show the fuel the callers pass is enough. *)

From Stdlib Require Import ZArith Lia Ascii String List.
From stdpp Require Import base option list strings gmap.

Open Scope Z_scope.

(** ** Panics and fuel *)

Inductive exec (A : Type) : Type :=
| Done (a : A)
| Panic (why : string)
| OutOfFuel.
Arguments Done {A} a.
Arguments Panic {A} why.
Arguments OutOfFuel {A}.

#[global] Instance exec_ret : MRet exec := λ A a, Done a.
#[global] Instance exec_bind : MBind exec := λ A B f m,
  match m with
  | Done a => f a
  | Panic w => Panic w
  | OutOfFuel => OutOfFuel
  end.

(** ** Bytes, indexing and slicing *)

Abbreviation byte := ascii (only parsing).
Abbreviation bytes := (list ascii) (only parsing).

Definition CR : ascii := "013"%char.
Definition LF : ascii := "010"%char.
Definition DQ : ascii := "034"%char.
Definition SP : ascii := " "%char.
Definition STAR : ascii := "*"%char.
Definition DOLLAR : ascii := "$"%char.

(** [len(b)] as a Go [int]. *)
Definition len {A} (l : list A) : Z := Z.of_nat (length l).

(** [data[i]]: panics unless [0 <= i < len(data)]. *)
Definition index (data : bytes) (i : Z) : exec ascii :=
  if (0 <=? i) && (i <? len data)
  then match data !! Z.to_nat i with
       | Some c => Done c
       | None => Panic "index out of range"
       end
  else Panic "index out of range".

(** [data[lo:hi]]: panics unless [0 <= lo <= hi <= len(data)]. Go bounds
    [hi] by the capacity, which is at least the length; lemma
    [bulk_slice_bounds] below shows that the one slice whose upper bound
    is not already below the length never lands between the two. *)
Definition slice (data : bytes) (lo hi : Z) : exec bytes :=
  if (0 <=? lo) && (lo <=? hi) && (hi <=? len data)
  then Done (take (Z.to_nat (hi - lo)) (drop (Z.to_nat lo) data))
  else Panic "slice bounds out of range".

(** ** 64-bit integer conversions *)

Definition wrap_uint (z : Z) : Z := z mod 2 ^ 64.
Definition wrap_int (z : Z) : Z := (z + 2 ^ 63) mod 2 ^ 64 - 2 ^ 63.

(** ** The parts of Go's [strconv] and [strings] the server calls *)

Module strconv.

Definition isDigit (c : ascii) : bool :=
  (48 <=? nat_of_ascii c)%nat && (nat_of_ascii c <=? 57)%nat.

Definition digit (c : ascii) : Z := Z.of_nat (nat_of_ascii c) - 48.

Definition maxUint64 : Z := 2 ^ 64 - 1.

(** The digit loop of [ParseUint(s, 10, 64)]; [None] stands for a
    non-nil error (syntax or range). *)
Fixpoint parseDigits (cs : bytes) (n : Z) : option Z :=
  match cs with
  | [] => Some n
  | c :: cs' =>
      if isDigit c then
        if maxUint64 / 10 + 1 <=? n then None
        else
          let n1 := n * 10 + digit c in
          if maxUint64 <? n1 then None else parseDigits cs' n1
      else None
  end.

(** [strconv.ParseUint(s, 10, 64)]. *)
Definition ParseUint (s : string) : option Z :=
  match s with
  | EmptyString => None
  | _ => parseDigits (list_ascii_of_string s) 0
  end.

(** [strconv.ParseInt(s, 10, 64)]: an optional sign, then [ParseUint]
    and the signed range check. *)
Definition ParseInt (s : string) : option Z :=
  match s with
  | EmptyString => None
  | String c s' =>
      let neg := bool_decide (c = "-"%char) in
      let s1 := if bool_decide (c = "+"%char) || neg then s' else s in
      match ParseUint s1 with
      | None => None
      | Some un =>
          if negb neg && (2 ^ 63 <=? un) then None
          else if neg && (2 ^ 63 <? un) then None
          else Some (if neg then - un else un)
      end
  end.

End strconv.

(** ** Protocol errors *)

Record protocolError : Type := { msg : string }.

(** [func (err *protocolError) Error() string] *)
Definition Error (err : protocolError) : string :=
  "Protocol error: " +:+ msg err.

(** What the three parser functions return:
    [(raw []byte, args []string, telnet bool, err error)]. *)
Definition parsed : Type :=
  (list ascii * list string * bool * option protocolError)%type.

(** ** Inline (telnet) framing *)

(** The [for] loop of [parseArgsFromTelnetLine]. [rest] is [line[i:]],
    so its head is [line[i]]; the other arguments are the loop's
    variables. After the loop come the two closing tests. *)
Fixpoint telnetArgsLoop (line rest : bytes) (i : Z) (args : list string)
    (s : Z) (lspace quote lquote : bool)
  : exec (list string * option protocolError) :=
  match rest with
  | [] =>
      if quote then
        Done ([], Some {| msg := "unbalanced quotes in request" |})
      else if s <? len line then
        a ← slice line s (len line);
        Done (args ++ [string_of_list_ascii a], None)
      else Done (args, None)
  | c :: rest' =>
      if bool_decide (c = DQ) then
        if quote then
          a ← slice line (s + 1) i;
          telnetArgsLoop line rest' (i + 1)
            (args ++ [string_of_list_ascii a]) (i + 1) lspace false true
        else if negb lspace then
          Done ([], Some {| msg := "unbalanced quotes in request" |})
        else
          telnetArgsLoop line rest' (i + 1) args s false true lquote
      else if bool_decide (c = SP) then
        if lquote then
          telnetArgsLoop line rest' (i + 1) args (s + 1) lspace quote lquote
        else
          a ← slice line s i;
          telnetArgsLoop line rest' (i + 1)
            (args ++ [string_of_list_ascii a]) (i + 1) true quote lquote
      else
        telnetArgsLoop line rest' (i + 1) args s false quote lquote
  end.

Definition parseArgsFromTelnetLine (line : bytes)
  : exec (list string * option protocolError) :=
  telnetArgsLoop line line 0 [] 0 true false false.

(** [for ; i < len(data); i++ { if data[i] == '\n' { ... } }]: every
    loop of this shape in the source leaves the loop (by [return] or
    [break]) in the body of the [if], so the loop is a search for the
    first line feed at an index [>= start]. [rest] is [data[i:]]. *)
Fixpoint scanLF_from (rest : bytes) (i : Z) : option Z :=
  match rest with
  | [] => None
  | c :: rest' =>
      if bool_decide (c = LF) then Some i else scanLF_from rest' (i + 1)
  end.

Definition scanLF (data : bytes) (start : Z) : option Z :=
  scanLF_from (drop (Z.to_nat start) data) start.

(** [return nil, nil, telnet, nil]: more data is needed. *)
Definition moreData (telnet : bool) : parsed := ([], [], telnet, None).

Definition protoErr (telnet : bool) (m : string) : parsed :=
  ([], [], telnet, Some {| msg := m |}).

Definition readBufferedTelnetCommand (data : bytes) : exec parsed :=
  match scanLF data 1 with
  | None => Done (moreData true)
  | Some i =>
      p ← index data (i - 1);
      line ← (if bool_decide (p = CR) then slice data 0 (i - 1)
              else slice data 0 i);
      if len line =? 0 then
        raw ← slice data 0 (i + 1);
        Done (raw, [], true, None)
      else
        r ← parseArgsFromTelnetLine line;
        match r with
        | (_, Some e) => Done ([], [], true, Some e)
        | (args, None) =>
            raw ← slice data 0 (i + 1);
            Done (raw, args, true, None)
        end
  end.

(** ** Multibulk framing *)

(** [string(data[i])] for a single byte: Go converts the byte as a code
    point, so a byte above 127 becomes its two-byte UTF-8 encoding. *)
Definition string_of_byte (c : ascii) : string :=
  let n := nat_of_ascii c in
  if (n <? 128)%nat then String c EmptyString
  else String (ascii_of_nat (192 + n / 64))
         (String (ascii_of_nat (128 + n mod 64)) EmptyString).

(** The loop [for j := int64(0); j < n; j++] of [readBufferedCommand],
    entered with the index [i] just after the header line. Each turn
    reads one [$<len>\r\n<bytes>\r\n] argument. When the inner scan finds
    no line feed the inner loop ends with [i == len(data)] and the next
    turn (or the end of the loop) answers "more data". *)
Fixpoint bulkLoop (fuel : nat) (data : bytes) (n j i : Z)
    (args : list string) : exec parsed :=
  match fuel with
  | O => OutOfFuel
  | S fuel' =>
      if j <? n then
        if i =? len data then Done (moreData false)
        else
          c ← index data i;
          if negb (bool_decide (c = DOLLAR)) then
            Done (protoErr false
                    ("expected '$', got '" +:+ string_of_byte c +:+ "'"))
          else
            let ii := i + 1 in
            match scanLF data i with
            | None => bulkLoop fuel' data n (j + 1) (len data) args
            | Some i1 =>
                p ← index data (i1 - 1);
                if negb (bool_decide (p = CR)) then
                  Done (protoErr false "invalid bulk length")
                else
                  fld ← slice data ii (i1 - 1);
                  match strconv.ParseUint (string_of_list_ascii fld) with
                  | None => Done (protoErr false "invalid bulk length")
                  | Some n2 =>
                      let i2 := i1 + 1 in
                      if len data - i2 <? wrap_int (wrap_uint (n2 + 2)) then
                        Done (moreData false)
                      else
                        a ← slice data i2 (wrap_int (i2 + wrap_int n2));
                        let args' := args ++ [string_of_list_ascii a] in
                        let i3 := wrap_int (i2 + wrap_int (wrap_uint (n2 + 2))) in
                        if j =? wrap_int (n - 1) then
                          raw ← slice data 0 i3;
                          Done (raw, args', false, None)
                        else bulkLoop fuel' data n (j + 1) i3 args'
                  end
            end
      else Done (moreData false)
  end.

Definition readBufferedCommand (data : bytes) : exec parsed :=
  c0 ← index data 0;
  if negb (bool_decide (c0 = STAR)) then readBufferedTelnetCommand data
  else
    match scanLF data 1 with
    | None => Done (moreData false)
    | Some i =>
        p ← index data (i - 1);
        if negb (bool_decide (p = CR)) then
          Done (protoErr false "invalid multibulk length")
        else
          hdr ← slice data 1 (i - 1);
          match strconv.ParseInt (string_of_list_ascii hdr) with
          | None => Done (protoErr false "invalid multibulk length")
          | Some n =>
              if n <=? 0 then
                raw ← slice data 0 (i + 1);
                Done (raw, [], false, None)
              else bulkLoop (length data) data n 0 (i + 1) []
          end
    end.

(** ** The buffered reader *)

(** What [ReadCommand] returns as [err]: the end of the source or a
    protocol error of the parser. *)
Inductive error : Type :=
| EOF
| ProtocolError (e : protocolError).

(** The [io.Reader] behind a [CommandReader]: the deliveries still to
    come, in order. A call of [Read] hands over the next one, cut to the
    size of the destination when it is longer (the rest stays pending);
    when nothing is pending the source is at its end. *)
Definition source : Type := list (list ascii).

(** [n, err := src.Read(p)]: returns [n], [err], the destination after
    the call (its first [n] bytes overwritten) and the source after it. *)
Definition sourceRead (src : source) (p : bytes)
  : nat * option error * list ascii * source :=
  match src with
  | [] => (O, Some EOF, p, [])
  | c :: src' =>
      let n := Nat.min (length c) (length p) in
      (n, None, take n c ++ drop n p,
       if (length c <=? length p)%nat then src' else drop n c :: src')
  end.

(** The slice [rd.buf]. It either shares the array of [rd.rbuf] (after
    [rd.buf = rd.rbuf[:n]] and re-slicing) or has an array of its own
    (after the defensive copy, after [append], and [nil]). Only the first
    kind is affected by a later [Read] into [rd.rbuf]. *)
Inductive buffer : Type :=
| InRbuf (lo hi : nat)
| Owned (data : list ascii).

Record CommandReader : Type := {
  rd : source;
  rbuf : list ascii;
  buf : buffer;
  copied : bool
}.

(** The bytes [rd.buf] currently denotes. *)
Definition bufBytes (r : CommandReader) : list ascii :=
  match buf r with
  | InRbuf lo hi => take (hi - lo) (drop lo (rbuf r))
  | Owned d => d
  end.

(** [rd.buf[k:]] *)
Definition bufFrom (bf : buffer) (k : nat) : buffer :=
  match bf with
  | InRbuf lo hi => InRbuf (lo + k) hi
  | Owned d => Owned (drop k d)
  end.

(** [rd.buf = append(rd.buf, rd.rbuf[:n]...)]: returns the new [rd.buf]
    and the new contents of [rd.rbuf]. A slice that shares [rd.rbuf]'s
    array and has room behind it is extended in place. *)
Definition bufAppend (r : CommandReader) (n : nat) : buffer * list ascii :=
  let new := take n (rbuf r) in
  match buf r with
  | Owned d => (Owned (d ++ new), rbuf r)
  | InRbuf lo hi =>
      if (hi + n <=? length (rbuf r))%nat then
        (InRbuf lo (hi + n),
         take hi (rbuf r) ++ new ++ drop (hi + n) (rbuf r))
      else (Owned (bufBytes r ++ new), rbuf r)
  end.

(** [if len(rd.buf) > 0 && !rd.copied { ... }]: pending bytes that
    still share [rd.rbuf]'s array are copied to an array of their own
    before the next [Read] overwrites it. *)
Definition keepPending (r : CommandReader) : CommandReader :=
  if (0 <? len (bufBytes r)) && negb (copied r) then
    {| rd := rd r; rbuf := rbuf r;
       buf := Owned (bufBytes r); copied := true |}
  else r.

(** [n, err := rd.rd.Read(rd.rbuf)] and, when [err] is nil, the update
    of [rd.buf] and [rd.copied] that follows it. *)
Definition readSource (r : CommandReader) : option error * CommandReader :=
  match sourceRead (rd r) (rbuf r) with
  | (_, Some e, rbuf', rd') =>
      (Some e,
       {| rd := rd'; rbuf := rbuf'; buf := buf r; copied := copied r |})
  | (n, None, rbuf', rd') =>
      let r2 := {| rd := rd'; rbuf := rbuf';
                   buf := buf r; copied := copied r |} in
      if len (bufBytes r2) =? 0 then
        (None, {| rd := rd'; rbuf := rbuf';
                  buf := InRbuf 0 n; copied := false |})
      else
        let '(bf, rb) := bufAppend r2 n in
        (None, {| rd := rd'; rbuf := rb; buf := bf; copied := true |})
  end.

(** [(raw []byte, args []string, flush bool, err error)] *)
Definition command : Type :=
  (list ascii * list string * bool * option error)%type.

(** [func (rd *CommandReader) ReadCommand()]. The function calls itself
    after every successful [Read]; [fuel] bounds these calls. *)
Fixpoint ReadCommand (fuel : nat) (r : CommandReader)
  : exec (command * CommandReader) :=
  match fuel with
  | O => OutOfFuel
  | S fuel' =>
      let readMore (r : CommandReader) : exec (command * CommandReader) :=
        match readSource (keepPending r) with
        | (Some e, r') => Done (([], [], false, Some e), r')
        | (None, r') => ReadCommand fuel' r'
        end in
      if 0 <? len (bufBytes r) then
        p ← readBufferedCommand (bufBytes r);
        match p with
        | (_, _, _, Some e) =>
            Done (([], [], false, Some (ProtocolError e)), r)
        | (raw, args, _, None) =>
            if len raw =? len (bufBytes r) then
              Done ((raw, args, true, None),
                    {| rd := rd r; rbuf := rbuf r;
                       buf := Owned []; copied := copied r |})
            else if 0 <? len raw then
              if len raw <=? len (bufBytes r) then
                Done ((raw, args, copied r, None),
                      {| rd := rd r; rbuf := rbuf r;
                         buf := bufFrom (buf r) (length raw);
                         copied := copied r |})
              else Panic "slice bounds out of range"
            else readMore r
        end
      else readMore r
  end.

(** [&CommandReader{rd: src, rbuf: make([]byte, 64*1024)}] *)
Definition newCommandReader (src : source) : CommandReader :=
  {| rd := src; rbuf := repeat "000"%char (64 * 1024);
     buf := Owned []; copied := false |}.

(** Fuel that covers every [Read] a source can serve and every command
    its bytes can hold. *)
Definition sourceWork (src : source) : nat :=
  foldr (λ c acc, (1 + 2 * length c + acc)%nat) O src.

Definition readerWork (r : CommandReader) : nat :=
  (length (bufBytes r) + sourceWork (rd r))%nat.

(** ** Server state *)

Inductive muEvent : Type := Lock | Unlock | RLock | RUnlock.

(** The fields of [Server] that change while the server runs. The two
    mutexes are kept as the list of operations performed on them. The
    [commands] map is filled once by [commandTable] and passed beside
    this record; values stored under a key are the strings the handlers
    put there. *)
Record Server : Type := {
  mu : list muEvent;
  keys : gmap string string;
  aof : list ascii;
  aofbuf : list ascii;
  aofmu : list muEvent
}.

Definition GetKey (s : Server) (name : string) : option string :=
  keys s !! name.

Definition SetKey (s : Server) (name value : string) : Server :=
  {| mu := mu s; keys := <[name := value]> (keys s); aof := aof s;
     aofbuf := aofbuf s; aofmu := aofmu s |}.

Definition DelKey (s : Server) (name : string) : option string * Server :=
  (keys s !! name,
   {| mu := mu s; keys := delete name (keys s); aof := aof s;
      aofbuf := aofbuf s; aofmu := aofmu s |}).

Definition withMu (s : Server) (e : muEvent) : Server :=
  {| mu := mu s ++ [e]; keys := keys s; aof := aof s;
     aofbuf := aofbuf s; aofmu := aofmu s |}.

(** The reply sink of a client: [ioutil.Discard] during replay, a
    [bufio.Writer] on the connection otherwise ([pending] is what has
    been written and not flushed, [sent] what reached the connection). *)
Inductive writer : Type :=
| Discard
| Bufio (pending sent : list ascii).

Definition write (w : writer) (p : bytes) : writer :=
  match w with
  | Discard => Discard
  | Bufio pending sent => Bufio (pending ++ p) sent
  end.

Definition Flush (w : writer) : writer :=
  match w with
  | Discard => Discard
  | Bufio pending sent => Bufio [] (sent ++ pending)
  end.

(** Modelled from the spec: the [Client] type and its reply methods are
    not in [server.go]. The record has the three fields the server
    assigns ([wr], [args], [raw]); its [server] pointer is the [Server]
    value threaded beside it. *)
Record Client : Type := {
  wr : writer;
  args : list string;
  raw : list ascii
}.

(** Modelled from the spec: [ReplyError] is not in [server.go]; an error
    reply is [-ERR <message>] and a line end (section 6). *)
Definition ReplyError (m : string) (c : Client) : Client :=
  {| wr := write (wr c) (list_ascii_of_string ("-ERR " +:+ m) ++ [CR; LF]);
     args := args c; raw := raw c |}.

(** Modelled from the spec: [ReplyString] is not in [server.go]; a
    simple-string reply is [+<text>] and a line end (section 6). *)
Definition ReplyString (m : string) (c : Client) : Client :=
  {| wr := write (wr c) (list_ascii_of_string ("+" +:+ m) ++ [CR; LF]);
     args := args c; raw := raw c |}.

(** [func(client *Client)]: a handler sees the client and, through its
    [server] pointer, the server. *)
Definition handler : Type := Client → Server → Client * Server.

Record Command : Type := {
  Write : bool;
  Read : bool;
  Func : handler
}.

(** The body of the [for] loop of [register]. *)
Definition registerOpt (cmd : Command) (c : ascii) : Command :=
  if bool_decide (c = "r"%char) then
    if negb (Write cmd) then
      {| Write := Write cmd; Read := true; Func := Func cmd |}
    else cmd
  else if bool_decide (c = "w"%char) then
    {| Write := true; Read := false; Func := Func cmd |}
  else cmd.

(** The [Command] that [register] builds from [f] and [opts]. *)
Definition registerCommand (f : handler) (opts : string) : Command :=
  foldl registerOpt {| Write := false; Read := false; Func := f |}
    (list_ascii_of_string opts).

Definition register (commands : gmap string Command)
    (commandName : string) (f : handler) (opts : string)
  : gmap string Command :=
  <[commandName := registerCommand f opts]> commands.

(** [strings.ToLower] on a string of ASCII bytes. *)
Definition lowerByte (c : ascii) : ascii :=
  let n := nat_of_ascii c in
  if (65 <=? n)%nat && (n <=? 90)%nat then ascii_of_nat (n + 32) else c.

Definition isASCII (s : string) : bool :=
  forallb (λ c, (nat_of_ascii c <? 128)%nat) (list_ascii_of_string s).

Section Dispatch.

(** The three handlers of [commandTable] are not in [server.go].
    [unicodeLower] is what [strings.ToLower] answers on a string that
    has a byte above 127 (the Unicode case tables). *)
Variables getCommand setCommand delCommand : handler.
Variable unicodeLower : string → string.

Definition ToLower (s : string) : string :=
  if isASCII s
  then string_of_list_ascii (map lowerByte (list_ascii_of_string s))
  else unicodeLower s.

Definition commandTable : gmap string Command :=
  register (register (register ∅ "get" getCommand "r")
              "set" setCommand "w") "del" delCommand "w".

(** [if flush { ... }] at the end of the loop of [handleConn]. *)
Definition flushPoint (c : Client) (s : Server) : Client * Server :=
  let s1 := withMu s Lock in
  let s2 :=
    if 0 <? len (aofbuf s1) then
      {| mu := mu s1 ++ [Unlock]; keys := keys s1;
         aof := aof s1 ++ aofbuf s1; aofbuf := [];
         aofmu := aofmu s1 ++ [Lock; Unlock] |}
    else withMu s1 Unlock in
  ({| wr := Flush (wr c); args := args c; raw := raw c |}, s2).

(** The [default:] branch of the [switch] in [handleConn]. *)
Definition dispatch (commands : gmap string Command) (name : string)
    (c : Client) (s : Server) : Client * Server :=
  match commands !! name with
  | Some cmd =>
      let s1 := if Write cmd then withMu s Lock
                else if Read cmd then withMu s RLock else s in
      let '(c2, s2) := Func cmd c s1 in
      if Write cmd then
        (c2, {| mu := mu s2 ++ [Unlock]; keys := keys s2; aof := aof s2;
                aofbuf := aofbuf s2 ++ raw c2; aofmu := aofmu s2 |})
      else if Read cmd then (c2, withMu s2 RUnlock)
      else (c2, s2)
  | None =>
      (ReplyError ("unknown command '" +:+ hd EmptyString (args c) +:+ "'") c,
       s)
  end.

(** What one turn of the loop of [handleConn] does once [ReadCommand]
    has answered. *)
Inductive turn : Type :=
| Return (c : Client) (s : Server)
| Continue (c : Client) (s : Server).

Definition handleCommand (commands : gmap string Command)
    (cmd : command) (c : Client) (s : Server) : turn :=
  match cmd with
  | (_, _, _, Some (ProtocolError e)) => Return (ReplyError (Error e) c) s
  | (_, _, _, Some EOF) => Return c s
  | (raw0, args0, flush, None) =>
      if len args0 =? 0 then Continue c s
      else
        let c1 := {| wr := wr c; args := args0; raw := raw0 |} in
        let name := ToLower (hd EmptyString args0) in
        if bool_decide (name = "quit") then Return (ReplyString "OK" c1) s
        else
          let '(c2, s2) :=
            if bool_decide (name = "ping") then (ReplyString "PONG" c1, s)
            else dispatch commands name c1 s in
          if flush then
            let '(c3, s3) := flushPoint c2 s2 in Continue c3 s3
          else Continue c2 s2
  end.

(** The [for] loop of [handleConn]. *)
Fixpoint connLoop (fuel : nat) (commands : gmap string Command)
    (r : CommandReader) (c : Client) (s : Server)
  : exec (Client * Server) :=
  match fuel with
  | O => OutOfFuel
  | S fuel' =>
      p ← ReadCommand fuel r;
      match handleCommand commands p.1 c s with
      | Return c' s' => Done (c', s')
      | Continue c' s' => connLoop fuel' commands p.2 c' s'
      end
  end.

(** [func handleConn(conn net.Conn, server *Server)]: [conn] is what
    the peer will send. The result is the client and the server when
    the function returns, the deferred [wr.Flush()] done. *)
Definition handleConn (commands : gmap string Command) (conn : source)
    (server : Server) : exec (Client * Server) :=
  p ← connLoop (S (sourceWork conn)) commands (newCommandReader conn)
        {| wr := Bufio [] []; args := []; raw := [] |} server;
  Done ({| wr := Flush (wr p.1); args := args p.1; raw := raw p.1 |}, p.2).

(** How the replay of [Start] ends: the log is loaded and the server
    goes on to listen, or [log.Fatalf] stops the process. *)
Inductive startup : Type :=
| Loaded (s : Server) (read : nat)
| Fatal (e : error).

(** The replay loop of [Start]. *)
Fixpoint replayLoop (fuel : nat) (commands : gmap string Command)
    (r : CommandReader) (c : Client) (s : Server) (read : nat)
  : exec startup :=
  match fuel with
  | O => OutOfFuel
  | S fuel' =>
      p ← ReadCommand fuel r;
      match p.1 with
      | (_, _, _, Some EOF) => Done (Loaded s read)
      | (_, _, _, Some e) => Done (Fatal e)
      | (raw0, args0, _, None) =>
          let c1 := {| wr := wr c; args := args0; raw := raw0 |} in
          match args0 with
          | [] => Panic "index out of range"
          | name :: _ =>
              let '(c2, s2) :=
                match commands !! name with
                | Some cmd => Func cmd c1 s
                | None =>
                    (ReplyError ("unknown command '" +:+ name +:+ "'") c1, s)
                end in
              replayLoop fuel' commands p.2 c2 s2 (S read)
          end
      end
  end.

(** A file as a source: its contents, read from the start. *)
Definition fileSource (file : bytes) : source :=
  match file with [] => [] | _ => [file] end.

(** [func Start(addr string)] up to the line that reports the number of
    replayed commands: [file] is what [appendonly.aof] holds when the
    process starts. *)
Definition Start (commands : gmap string Command) (file : bytes)
  : exec startup :=
  let s := {| mu := []; keys := ∅; aof := file; aofbuf := [];
              aofmu := [] |} in
  replayLoop (S (sourceWork (fileSource file))) commands
    (newCommandReader (fileSource file))
    {| wr := Discard; args := []; raw := [] |} s O.

End Dispatch.

(** Modelled from the spec: the handler of [set] is not in [server.go];
    it stores its second argument under its first and answers [+OK]. A
    request of another shape gets an error reply and stores nothing. *)
Definition setCommand (c : Client) (s : Server) : Client * Server :=
  match args c with
  | [_; name; value] => (ReplyString "OK" c, SetKey s name value)
  | _ => (ReplyError "wrong number of arguments for 'set' command" c, s)
  end.

(** ** Notions used in the statements *)

(** A parser answer that asks for more data: no bytes consumed, no
    error. *)
Definition needsMore (p : parsed) : bool :=
  match p with
  | ([], _, _, None) => true
  | _ => false
  end.

(** [r'] agrees with [r] wherever [r] is a decision (a command, a
    protocol error or a panic). *)
Definition settles (r r' : exec parsed) : Prop :=
  match r with
  | Done p => needsMore p = false → r' = Done p
  | Panic w => r' = Panic w
  | OutOfFuel => True
  end.

(** The raw bytes of an answer are the first bytes of the buffer. *)
Definition rawPrefix (data : list ascii) (r : exec parsed) : Prop :=
  match r with
  | Done (raw, _, _, _) => raw = take (length raw) data
  | _ => True
  end.

(** The bytes a reader has not yet turned into commands: its buffer,
    then what the source will still deliver. *)
Definition stream (r : CommandReader) : list ascii :=
  bufBytes r ++ concat (rd r).

(** The buffer discipline of [ReadCommand]: a buffer that shares
    [rd.rbuf]'s array lies inside it and is not marked as copied. *)
Definition wfReader (r : CommandReader) : Prop :=
  (0 < length (rbuf r))%nat ∧
  match buf r with
  | InRbuf lo hi => copied r = false ∧ (lo <= hi <= length (rbuf r))%nat
  | Owned _ => True
  end.

(** What the parser says about the head of a stream. *)
Definition firstCommand (s : list ascii) : exec parsed :=
  match s with
  | [] => Done (moreData false)
  | _ => readBufferedCommand s
  end.

(** [res] is what [ReadCommand] must answer on a reader whose stream is
    [s] and whose work measure is [w]. *)
Definition readOutcome (s : list ascii) (w : nat)
    (res : exec (command * CommandReader)) : Prop :=
  match firstCommand s with
  | Done (_, _, _, Some e) =>
      ∃ r', res = Done (([], [], false, Some (ProtocolError e)), r')
  | Done ([], _, _, None) =>
      ∃ r', res = Done (([], [], false, Some EOF), r')
  | Done (raw, args, _, None) =>
      ∃ flush r', res = Done ((raw, args, flush, None), r') ∧
        wfReader r' ∧ stream r' = drop (length raw) s ∧
        (readerWork r' < w)%nat
  | Panic why => res = Panic why
  | OutOfFuel => False
  end.

(** How a run of [ReadCommand] calls ends: with the error the reader
    answered, or with the panic that stops the process. *)
Inductive stop : Type :=
| Stopped (e : error)
| Crashed (why : string).

(** The argument lists [ReadCommand] yields when it is called until it
    answers an error, as the loops of [handleConn] and [Start] call it. *)
Fixpoint readAll (fuel : nat) (r : CommandReader)
  : option (list (list string) * stop) :=
  match fuel with
  | O => None
  | S fuel' =>
      match ReadCommand fuel r with
      | OutOfFuel => None
      | Panic why => Some ([], Crashed why)
      | Done ((_, _, _, Some e), _) => Some ([], Stopped e)
      | Done ((_, args, _, None), r') =>
          match readAll fuel' r' with
          | Some (l, e) => Some (args :: l, e)
          | None => None
          end
      end
  end.

(** The commands decoded from a source, given as its deliveries. *)
Definition decoded (deliveries : source) : option (list (list string) * stop) :=
  readAll (S (sourceWork deliveries)) (newCommandReader deliveries).

(** The commands in a byte sequence, parsed from the front with no
    reader in between. *)
Fixpoint parseAll (fuel : nat) (s : list ascii)
  : option (list (list string) * stop) :=
  match fuel with
  | O => None
  | S fuel' =>
      match firstCommand s with
      | OutOfFuel => None
      | Panic why => Some ([], Crashed why)
      | Done (_, _, _, Some e) => Some ([], Stopped (ProtocolError e))
      | Done ([], _, _, None) => Some ([], Stopped EOF)
      | Done (raw, args, _, None) =>
          match parseAll fuel' (drop (length raw) s) with
          | Some (l, e) => Some (args :: l, e)
          | None => None
          end
      end
  end.

(** [[]byte(s)], to write requests down. *)
Definition b (s : string) : list ascii := list_ascii_of_string s.

(** The line end [\r\n]. *)
Definition crlf : list ascii := [CR; LF].

(** [*1\r\n$4\r\nPING\r\n] *)
Definition pingFrame : list ascii :=
  b "*1" ++ crlf ++ b "$4" ++ crlf ++ b "PING" ++ crlf.

(** [*3\r\n$3\r\nSET\r\n$1\r\nx\r\n$1\r\n1\r\n] *)
Definition setFrame : list ascii :=
  b "*3" ++ crlf ++ b "$3" ++ crlf ++ b "SET" ++ crlf ++
  b "$1" ++ crlf ++ b "x" ++ crlf ++ b "$1" ++ crlf ++ b "1" ++ crlf.

(** The command was read in multibulk framing: its first byte is [*]. *)
Definition isMultibulk (raw : list ascii) : bool :=
  match raw with
  | c :: _ => bool_decide (c = STAR)
  | [] => false
  end.

(** What a call of [ReadCommand] shows without the reader's arrays: the
    command, the bytes left in the buffer and the [copied] mark. *)
Definition observe (x : exec (command * CommandReader))
  : exec (command * list ascii * bool) :=
  match x with
  | Done (cmd, r) => Done (cmd, bufBytes r, copied r)
  | Panic why => Panic why
  | OutOfFuel => OutOfFuel
  end.

(** The flush flag as the specification words it: set exactly when the
    command emptied the buffer or was an inline command. *)
Definition flushAsSpecified (fuel : nat) (r : CommandReader) : Prop :=
  ∀ raw args flush r',
    ReadCommand fuel r = Done ((raw, args, flush, None), r') →
    (flush = true ↔ (bufBytes r' = [] ∨ isMultibulk raw = false)).

(** One bulk argument as it stands in a request: [$], the length field,
    a line end, the argument and the two bytes after it (which the
    parser skips without looking at them). *)
Record bulk : Type := {
  field : list ascii;
  payload : list ascii;
  trailer : list ascii
}.

(** The bytes of one argument, and of a run of arguments. *)
Definition wire (x : bulk) : list ascii :=
  [DOLLAR] ++ field x ++ crlf ++ payload x ++ trailer x.

Definition wireAll (xs : list bulk) : list ascii :=
  concat (map wire xs).

(** The length field is the length of the argument. *)
Definition wfBulk (x : bulk) : Prop :=
  strconv.ParseUint (string_of_list_ascii (field x)) = Some (len (payload x)) ∧
  length (trailer x) = 2%nat.

(** The arguments as the parser hands them on. *)
Definition bulkArgs (xs : list bulk) : list string :=
  map (λ x, string_of_list_ascii (payload x)) xs.

(** The server before its first command: [btree.New(16)], an empty log
    and an empty staging buffer. *)
Definition newServer : Server :=
  {| mu := []; keys := ∅; aof := []; aofbuf := []; aofmu := [] |}.

(** Words joined by single spaces: an inline request line. *)
Fixpoint joinSP (ws : list (list ascii)) : list ascii :=
  match ws with
  | [] => []
  | [w] => w
  | w :: ws' => w ++ SP :: joinSP ws'
  end.

(** A word of an inline request: not empty and free of the four bytes
    the inline framing gives a meaning to. *)
Definition inlineWord (w : list ascii) : Prop :=
  w ≠ [] ∧ (SP ∉ w) ∧ (DQ ∉ w) ∧ (CR ∉ w) ∧ (LF ∉ w).

(** The state of a [sync.RWMutex] after a run of operations: whether a
    writer holds it and how many readers do; [None] once an operation
    was made in a state that does not allow it. *)
Definition muStep (st : option (bool * nat)) (e : muEvent)
  : option (bool * nat) :=
  match st, e with
  | Some (false, O), Lock => Some (true, O)
  | Some (true, O), Unlock => Some (false, O)
  | Some (false, n), RLock => Some (false, S n)
  | Some (false, S n), RUnlock => Some (false, n)
  | _, _ => None
  end.

Definition muRun (es : list muEvent) : option (bool * nat) :=
  foldl muStep (Some (false, O)) es.

(** The mutex has been used as its protocol asks and nobody holds it. *)
Definition muFree (es : list muEvent) : Prop :=
  muRun es = Some (false, O).

(** The server a turn of the loop leaves behind. *)
Definition turnServer (t : turn) : Server :=
  match t with Return _ s => s | Continue _ s => s end.

(** What a registered handler makes of a keyspace, seen through the
    arguments of the request alone. *)
Definition keyEffect (commands : gmap string Command)
    (k : gmap string string) (args0 : list string) : gmap string string :=
  match commands !! hd EmptyString args0 with
  | Some cmd =>
      keys (Func cmd {| wr := Discard; args := args0; raw := [] |}
              {| mu := []; keys := k; aof := []; aofbuf := [];
                 aofmu := [] |}).2
  | None => k
  end.

(** A request as it stands in the log: its bytes decode to its
    arguments, and its name is that of a write command. *)
Definition loggedRequest (commands : gmap string Command)
    (w : list ascii * list string) : Prop :=
  w.1 ≠ [] ∧
  (∃ t, readBufferedCommand w.1 = Done (w.1, w.2, t, None)) ∧
  ∃ name rest cmd, w.2 = name :: rest ∧ commands !! name = Some cmd ∧
                   Write cmd = true.

(** The handlers leave the log, the staging buffer and the raw bytes
    of the request alone. *)
Definition handlersKeepLog (commands : gmap string Command) : Prop :=
  ∀ name cmd c0 s0, commands !! name = Some cmd →
    aof (Func cmd c0 s0).2 = aof s0 ∧
    aofbuf (Func cmd c0 s0).2 = aofbuf s0 ∧
    raw (Func cmd c0 s0).1 = raw c0.

(** The keyspace a write handler leaves depends on the arguments and
    the keyspace it found, and on nothing else. *)
Definition writersByArgs (commands : gmap string Command) : Prop :=
  ∀ name cmd c1 s1 c2 s2, commands !! name = Some cmd → Write cmd = true →
    args c1 = args c2 → keys s1 = keys s2 →
    keys (Func cmd c1 s1).2 = keys (Func cmd c2 s2).2.

(** The other handlers do not change the keyspace. *)
Definition readersKeepKeys (commands : gmap string Command) : Prop :=
  ∀ name cmd c0 s0, commands !! name = Some cmd → Write cmd = false →
    keys (Func cmd c0 s0).2 = keys s0.

(** The number of spaces in a run of bytes. *)
Definition spaces (t : list ascii) : Z :=
  len (filter (λ c, c = SP) t).

(** * Proofs *)

(** ** Indexing and slicing an extended buffer *)

Lemma len_app {A} (l k : list A) : len (l ++ k) = len l + len k.
Proof. unfold len. rewrite length_app. lia. Qed.

Lemma len_nonneg {A} (l : list A) : 0 <= len l.
Proof. unfold len. lia. Qed.

Lemma index_app_l (data x : list ascii) (i : Z) :
  i < len data → index (data ++ x) i = index data i.
Proof.
  intros Hi. unfold index. rewrite len_app.
  pose proof (len_nonneg x).
  destruct (0 <=? i) eqn:H0; simpl; [|reflexivity].
  apply Z.leb_le in H0.
  replace (i <? len data + len x) with true by (symmetry; apply Z.ltb_lt; lia).
  replace (i <? len data) with true by (symmetry; apply Z.ltb_lt; lia).
  rewrite lookup_app_l; [reflexivity|]. unfold len in Hi. lia.
Qed.

Lemma index_Done (data : list ascii) (i : Z) (c : ascii) :
  index data i = Done c → 0 <= i < len data ∧ data !! Z.to_nat i = Some c.
Proof.
  unfold index. destruct (0 <=? i) eqn:H0; simpl; [|discriminate].
  destruct (i <? len data) eqn:H1; [|discriminate].
  apply Z.leb_le in H0. apply Z.ltb_lt in H1.
  destruct (data !! Z.to_nat i); [|discriminate].
  intros [= ->]. auto.
Qed.

Lemma index_in_range (data : list ascii) (i : Z) :
  0 <= i < len data → ∃ c, index data i = Done c ∧ data !! Z.to_nat i = Some c.
Proof.
  intros [H0 H1]. unfold index.
  replace (0 <=? i) with true by (symmetry; apply Z.leb_le; lia).
  replace (i <? len data) with true by (symmetry; apply Z.ltb_lt; lia).
  simpl. destruct (data !! Z.to_nat i) as [c|] eqn:E; [eauto|].
  apply lookup_ge_None in E. unfold len in H1. lia.
Qed.

Lemma slice_app_l (data x : list ascii) (lo hi : Z) :
  hi <= len data → slice (data ++ x) lo hi = slice data lo hi.
Proof.
  intros Hhi. unfold slice. rewrite len_app.
  pose proof (len_nonneg x).
  destruct (0 <=? lo) eqn:H0; simpl; [|reflexivity].
  destruct (lo <=? hi) eqn:H1; simpl; [|reflexivity].
  apply Z.leb_le in H0, H1.
  replace (hi <=? len data + len x) with true by (symmetry; apply Z.leb_le; lia).
  replace (hi <=? len data) with true by (symmetry; apply Z.leb_le; lia).
  f_equal. unfold len in Hhi.
  rewrite drop_app_le by lia.
  rewrite take_app_le; [reflexivity|].
  rewrite length_drop. lia.
Qed.

Lemma slice_Done (data : list ascii) (lo hi : Z) (r : list ascii) :
  slice data lo hi = Done r →
  0 <= lo <= hi ∧ hi <= len data ∧
  r = take (Z.to_nat (hi - lo)) (drop (Z.to_nat lo) data) ∧ len r = hi - lo.
Proof.
  unfold slice.
  destruct (0 <=? lo) eqn:H0; simpl; [|discriminate].
  destruct (lo <=? hi) eqn:H1; simpl; [|discriminate].
  destruct (hi <=? len data) eqn:H2; [|discriminate].
  apply Z.leb_le in H0, H1, H2. intros [= <-].
  repeat split; try lia.
  unfold len in *. rewrite length_take, length_drop. lia.
Qed.

Lemma slice_in_range (data : list ascii) (lo hi : Z) :
  0 <= lo <= hi → hi <= len data →
  slice data lo hi = Done (take (Z.to_nat (hi - lo)) (drop (Z.to_nat lo) data)).
Proof.
  intros [H0 H1] H2. unfold slice.
  replace (0 <=? lo) with true by (symmetry; apply Z.leb_le; lia).
  replace (lo <=? hi) with true by (symmetry; apply Z.leb_le; lia).
  replace (hi <=? len data) with true by (symmetry; apply Z.leb_le; lia).
  reflexivity.
Qed.

Lemma slice_reversed (data : list ascii) (lo hi : Z) :
  hi < lo → slice data lo hi = Panic "slice bounds out of range".
Proof.
  intros H. unfold slice.
  replace (lo <=? hi) with false by (symmetry; apply Z.leb_gt; lia).
  rewrite andb_false_r. reflexivity.
Qed.

(** ** The line-feed scan *)

Lemma scanLF_from_Some (rest : list ascii) (i k : Z) :
  scanLF_from rest i = Some k →
  i <= k < i + len rest ∧ rest !! Z.to_nat (k - i) = Some LF ∧
  ∀ x, scanLF_from (rest ++ x) i = Some k.
Proof.
  revert i. induction rest as [|c rest IH]; intros i; simpl; [discriminate|].
  case_bool_decide as Hc.
  - intros [= <-]. subst c. unfold len. simpl.
    replace (i - i) with 0 by lia. simpl. repeat split; try lia; auto.
  - intros H. destruct (IH _ H) as (Hr & Hl & Hx).
    unfold len in *. simpl length.
    repeat split; try lia.
    + replace (Z.to_nat (k - i)) with (S (Z.to_nat (k - (i + 1)))) by lia.
      exact Hl.
    + intros x. apply Hx.
Qed.

Lemma scanLF_Some (data : list ascii) (start k : Z) :
  0 <= start → scanLF data start = Some k →
  start <= k < len data ∧ data !! Z.to_nat k = Some LF ∧
  ∀ x, scanLF (data ++ x) start = Some k.
Proof.
  intros H0 H. unfold scanLF in *.
  destruct (decide (Z.to_nat start <= length data)%nat) as [Hle|Hgt].
  - destruct (scanLF_from_Some _ _ _ H) as (Hr & Hl & Hx).
    unfold len in *. rewrite length_drop in Hr.
    rewrite lookup_drop in Hl.
    replace (Z.to_nat start + Z.to_nat (k - start))%nat with (Z.to_nat k) in Hl by lia.
    repeat split; try lia; auto.
    intros x. rewrite drop_app_le by lia. apply Hx.
  - rewrite drop_ge in H by lia. discriminate.
Qed.

Lemma scanLF_from_None_index (rest : list ascii) (i : Z) :
  scanLF_from rest i = None → LF ∉ rest.
Proof.
  revert i. induction rest as [|c rest IH]; intros i; simpl.
  - intros _. apply not_elem_of_nil.
  - case_bool_decide as Hc; [discriminate|].
    intros H. apply not_elem_of_cons. split; [congruence|]. eauto.
Qed.

Lemma scanLF_from_skip (pre rest : list ascii) (i : Z) :
  LF ∉ pre → scanLF_from (pre ++ rest) i = scanLF_from rest (i + len pre).
Proof.
  revert i. induction pre as [|c pre IH]; intros i Hn; simpl.
  - unfold len. simpl. f_equal. lia.
  - apply not_elem_of_cons in Hn as [Hc Hn].
    case_bool_decide; [congruence|].
    rewrite IH by assumption. f_equal. unfold len. simpl length. lia.
Qed.

Ltac pow2 :=
  change (2 ^ 64) with 18446744073709551616 in *;
  change (2 ^ 63) with 9223372036854775808 in *.

Ltac wrap_lia :=
  unfold wrap_int, wrap_uint in *; pow2; Z.div_mod_to_equations; lia.

(** The one slice of [readBufferedCommand] whose upper bound comes from
    the request. *)
Lemma bulk_slice_bounds (n2 i2 l : Z) :
  0 <= n2 < 2 ^ 64 → 2 <= i2 <= l → l < 2 ^ 63 →
  ¬ (l - i2 < wrap_int (wrap_uint (n2 + 2))) →
  (n2 < 2 ^ 63 - 2 ∧ wrap_int (i2 + wrap_int n2) = i2 + n2 ∧
   wrap_int (i2 + wrap_int (wrap_uint (n2 + 2))) = i2 + n2 + 2 ∧
   i2 + n2 + 2 <= l)
  ∨ (2 ^ 63 - 2 <= n2 ∧ wrap_int (i2 + wrap_int n2) < i2).
Proof.
  intros Hn Hi Hl Hc.
  destruct (Z_lt_dec n2 (2 ^ 63 - 2)); [left|right]; wrap_lia.
Qed.

Lemma isDigit_digit (c : ascii) :
  strconv.isDigit c = true → 0 <= strconv.digit c <= 9.
Proof.
  unfold strconv.isDigit, strconv.digit. intros H.
  apply andb_true_iff in H as [H1 H2].
  apply Nat.leb_le in H1, H2. lia.
Qed.

Lemma parseDigits_range (cs : list ascii) (n m : Z) :
  0 <= n < 2 ^ 64 → strconv.parseDigits cs n = Some m → 0 <= m < 2 ^ 64.
Proof.
  revert n. induction cs as [|c cs IH]; intros n Hn; simpl.
  - intros [= <-]. lia.
  - destruct (strconv.isDigit c) eqn:Hd; [|discriminate].
    apply isDigit_digit in Hd.
    destruct (_ <=? n) eqn:Hc; [discriminate|].
    destruct (_ <? _) eqn:Hm; [discriminate|].
    apply Z.ltb_ge in Hm. unfold strconv.maxUint64 in Hm.
    apply IH. pow2. lia.
Qed.

Lemma ParseUint_range (s : string) (m : Z) :
  strconv.ParseUint s = Some m → 0 <= m < 2 ^ 64.
Proof.
  unfold strconv.ParseUint. destruct s; [discriminate|].
  apply parseDigits_range. pow2. lia.
Qed.

(** ** Deciding on a prefix decides for every extension *)

Lemma settles_refl r : settles r r.
Proof. destruct r; simpl; auto. Qed.

Lemma telnet_stable (data x : list ascii) (i : Z) :
  scanLF data 1 = Some i →
  readBufferedTelnetCommand (data ++ x) = readBufferedTelnetCommand data.
Proof.
  intros H. unfold readBufferedTelnetCommand.
  destruct (scanLF_Some data 1 i ltac:(lia) H) as (Hr & _ & Hx).
  rewrite Hx, H.
  rewrite index_app_l by lia.
  rewrite !slice_app_l by lia.
  reflexivity.
Qed.

Lemma bulkLoop_at_end (fuel : nat) (data : list ascii) (n j : Z) args :
  bulkLoop fuel data n j (len data) args = Done (moreData false) ∨
  bulkLoop fuel data n j (len data) args = OutOfFuel.
Proof.
  destruct fuel; simpl; [auto|].
  destruct (j <? n); [|auto].
  rewrite Z.eqb_refl. auto.
Qed.

Lemma bulkLoop_stable (fuel : nat) (data x : list ascii) (n j i : Z) args :
  2 <= i <= len data → len (data ++ x) < 2 ^ 63 →
  settles (bulkLoop fuel data n j i args)
          (bulkLoop fuel (data ++ x) n j i args).
Proof.
  revert j i args.
  induction fuel as [|fuel IH]; intros j i args Hi Hlen; [exact I|].
  pose proof (len_nonneg x) as Hx0.
  rewrite len_app in Hlen.
  simpl bulkLoop.
  destruct (j <? n); [|apply settles_refl].
  destruct (i =? len data) eqn:Hend; [intros H; discriminate|].
  apply Z.eqb_neq in Hend.
  replace (i =? len (data ++ x)) with false
    by (symmetry; apply Z.eqb_neq; rewrite len_app; lia).
  rewrite index_app_l by lia.
  destruct (index data i) as [c|w|]; simpl; [|reflexivity|exact I].
  destruct (negb (bool_decide (c = DOLLAR))); [intros _; reflexivity|].
  destruct (scanLF data i) as [i1|] eqn:Hscan.
  2:{ destruct (bulkLoop_at_end fuel data n (j + 1) args) as [-> | ->];
        [intros H; discriminate|exact I]. }
  destruct (scanLF_Some data i i1 ltac:(lia) Hscan) as (Hr & _ & Hsx).
  rewrite Hsx.
  rewrite index_app_l by lia.
  destruct (index data (i1 - 1)) as [p|w|]; simpl; [|reflexivity|exact I].
  destruct (negb (bool_decide (p = CR))); [intros _; reflexivity|].
  rewrite slice_app_l by lia.
  destruct (slice data (i + 1) (i1 - 1)) as [fld|w|]; simpl;
    [|reflexivity|exact I].
  destruct (strconv.ParseUint (string_of_list_ascii fld)) as [n2|] eqn:Hp;
    [|intros _; reflexivity].
  apply ParseUint_range in Hp.
  destruct (len data - (i1 + 1) <? _) eqn:Hchk; [intros H; discriminate|].
  apply Z.ltb_ge in Hchk.
  replace (len (data ++ x) - (i1 + 1) <? wrap_int (wrap_uint (n2 + 2)))
    with false by (symmetry; apply Z.ltb_ge; rewrite len_app; lia).
  destruct (bulk_slice_bounds n2 (i1 + 1) (len data)) as
    [(Hsmall & Hh & Hi3 & Hfit) | (Hbig & Hrev)]; try lia.
  - rewrite Hh, Hi3.
    rewrite !slice_app_l by lia.
    destruct (slice data (i1 + 1) (i1 + 1 + n2)) as [a|w|]; simpl;
      [|reflexivity|exact I].
    destruct (j =? wrap_int (n - 1)).
    + destruct (slice data 0 (i1 + 1 + n2 + 2)); simpl; auto.
    + apply IH; [lia|rewrite len_app; lia].
  - rewrite (slice_reversed data _ _ Hrev).
    rewrite (slice_reversed (data ++ x) _ _ Hrev). reflexivity.
Qed.

Ltac break_match :=
  match goal with
  | |- context [match ?e with _ => _ end] =>
      lazymatch e with
      | bulkLoop _ _ _ _ _ _ => fail
      | _ => destruct e eqn:?
      end
  end.

Lemma index_not_OutOfFuel data i : index data i ≠ OutOfFuel.
Proof. unfold index. repeat break_match; discriminate. Qed.

Lemma slice_not_OutOfFuel data lo hi : slice data lo hi ≠ OutOfFuel.
Proof. unfold slice. repeat break_match; discriminate. Qed.

Lemma bulkLoop_fuel_mono (fuel fuel' : nat) (data : list ascii) (n j i : Z) args :
  (fuel <= fuel')%nat → bulkLoop fuel data n j i args ≠ OutOfFuel →
  bulkLoop fuel' data n j i args = bulkLoop fuel data n j i args.
Proof.
  revert fuel' j i args.
  induction fuel as [|fuel IH]; intros fuel' j i args Hle Hne;
    [simpl in Hne; congruence|].
  destruct fuel' as [|fuel']; [lia|].
  simpl in *. unfold mbind, exec_bind in *.
  repeat (break_match; simpl in *; try reflexivity; try congruence).
  all: apply IH; [lia|assumption].
Qed.

Lemma bulkLoop_total (fuel : nat) (data : list ascii) (n j i : Z) args :
  2 <= i <= len data → len data < 2 ^ 63 →
  len data - i < Z.of_nat fuel →
  bulkLoop fuel data n j i args ≠ OutOfFuel.
Proof.
  revert j i args.
  induction fuel as [|fuel IH]; intros j i args Hi Hlen Hf; [lia|].
  simpl bulkLoop.
  destruct (j <? n); [|discriminate].
  destruct (i =? len data) eqn:Hend; [discriminate|].
  apply Z.eqb_neq in Hend.
  destruct (index data i) as [c|w|] eqn:Hc; simpl; [|discriminate|].
  2:{ destruct (index_in_range data i) as (c & Hc' & _); [lia|congruence]. }
  destruct (negb (bool_decide (c = DOLLAR))); [discriminate|].
  destruct (scanLF data i) as [i1|] eqn:Hscan.
  2:{ apply IH; lia. }
  destruct (scanLF_Some data i i1 ltac:(lia) Hscan) as (Hr & _ & _).
  destruct (index data (i1 - 1)) as [p|w|] eqn:Hp; simpl; [|discriminate|].
  2:{ apply index_not_OutOfFuel in Hp. contradiction. }
  destruct (negb (bool_decide (p = CR))); [discriminate|].
  destruct (slice data (i + 1) (i1 - 1)) as [fld|w|] eqn:Hfld; simpl;
    [|discriminate|].
  2:{ apply slice_not_OutOfFuel in Hfld. contradiction. }
  destruct (strconv.ParseUint (string_of_list_ascii fld)) as [n2|] eqn:Hpu;
    [|discriminate].
  apply ParseUint_range in Hpu.
  destruct (len data - (i1 + 1) <? _) eqn:Hchk; [discriminate|].
  apply Z.ltb_ge in Hchk.
  destruct (bulk_slice_bounds n2 (i1 + 1) (len data)) as
    [(Hsmall & Hh & Hi3 & Hfit) | (Hbig & Hrev)]; try lia.
  - rewrite Hh, Hi3.
    destruct (slice data (i1 + 1) (i1 + 1 + n2)) as [a|w|] eqn:Ha; simpl;
      [|discriminate|].
    2:{ apply slice_not_OutOfFuel in Ha. contradiction. }
    destruct (j =? wrap_int (n - 1)).
    + destruct (slice data 0 (i1 + 1 + n2 + 2)) eqn:Hraw; simpl;
        try discriminate.
      apply slice_not_OutOfFuel in Hraw. contradiction.
    + apply IH; lia.
  - rewrite (slice_reversed data _ _ Hrev). discriminate.
Qed.

Lemma bind_not_OutOfFuel {A B} (m : exec A) (f : A → exec B) :
  m ≠ OutOfFuel → (∀ a, m = Done a → f a ≠ OutOfFuel) →
  m ≫= f ≠ OutOfFuel.
Proof. destruct m; simpl; intros Hm Hf; [auto|discriminate|congruence]. Qed.

Ltac exec_total :=
  repeat first
    [ discriminate
    | apply bind_not_OutOfFuel; [|intros ? ?]
    | apply index_not_OutOfFuel
    | apply slice_not_OutOfFuel
    | match goal with
      | |- (if ?e then _ else _) ≠ OutOfFuel => destruct e
      | |- (if ?e then _ else _) ≫= _ ≠ OutOfFuel => destruct e
      end ].

Lemma telnetArgsLoop_total (line rest : list ascii) i args s lspace quote lquote :
  telnetArgsLoop line rest i args s lspace quote lquote ≠ OutOfFuel.
Proof.
  revert i args s lspace quote lquote.
  induction rest as [|c rest IH]; intros; simpl; exec_total; apply IH.
Qed.

Lemma readBufferedTelnetCommand_total (data : list ascii) :
  readBufferedTelnetCommand data ≠ OutOfFuel.
Proof.
  unfold readBufferedTelnetCommand.
  destruct (scanLF data 1); exec_total.
  - apply telnetArgsLoop_total.
  - destruct a1 as [? [?|]]; exec_total.
Qed.

(** [readBufferedCommand] never runs out of the fuel it gives its loop. *)
Lemma readBufferedCommand_total (data : list ascii) :
  len data < 2 ^ 63 → readBufferedCommand data ≠ OutOfFuel.
Proof.
  intros Hlen. unfold readBufferedCommand.
  destruct (index data 0) eqn:Hi; simpl; try discriminate.
  2:{ apply index_not_OutOfFuel in Hi. contradiction. }
  destruct (negb _); [apply readBufferedTelnetCommand_total|].
  destruct (scanLF data 1) as [i|] eqn:Hscan; [|discriminate].
  destruct (scanLF_Some data 1 i ltac:(lia) Hscan) as (Hr & _ & _).
  destruct (index data (i - 1)) eqn:Hp; simpl; try discriminate.
  2:{ apply index_not_OutOfFuel in Hp. contradiction. }
  destruct (negb _); [discriminate|].
  destruct (slice data 1 (i - 1)) eqn:Hh; simpl; try discriminate.
  2:{ apply slice_not_OutOfFuel in Hh. contradiction. }
  destruct (strconv.ParseInt _); [|discriminate].
  destruct (_ <=? 0).
  - destruct (slice data 0 (i + 1)) eqn:Hraw; simpl; try discriminate.
    apply slice_not_OutOfFuel in Hraw. contradiction.
  - apply bulkLoop_total; unfold len in *; lia.
Qed.

Lemma readBufferedCommand_stable (data x : list ascii) :
  data ≠ [] → len (data ++ x) < 2 ^ 63 →
  settles (readBufferedCommand data) (readBufferedCommand (data ++ x)).
Proof.
  intros Hne Hlen.
  assert (0 < len data) as Hpos
    by (destruct data; [congruence|unfold len; simpl; lia]).
  unfold readBufferedCommand.
  rewrite index_app_l by lia.
  destruct (index data 0) as [c0|w|]; simpl; [|reflexivity|exact I].
  destruct (negb (bool_decide (c0 = STAR))).
  - destruct (scanLF data 1) as [i|] eqn:Hscan.
    + rewrite (telnet_stable _ _ _ Hscan). apply settles_refl.
    + unfold readBufferedTelnetCommand at 1. rewrite Hscan.
      intros H; discriminate.
  - destruct (scanLF data 1) as [i|] eqn:Hscan; [|intros H; discriminate].
    destruct (scanLF_Some data 1 i ltac:(lia) Hscan) as (Hr & _ & Hsx).
    rewrite Hsx.
    rewrite index_app_l by lia.
    destruct (index data (i - 1)) as [p|w|]; simpl; [|reflexivity|exact I].
    destruct (negb (bool_decide (p = CR))); [intros _; reflexivity|].
    rewrite (slice_app_l data x 1 (i - 1)) by lia.
    rewrite (slice_app_l data x 0 (i + 1)) by lia.
    destruct (slice data 1 (i - 1)) as [hdr|w|]; simpl; [|reflexivity|exact I].
    destruct (strconv.ParseInt _) as [n|]; [|intros _; reflexivity].
    destruct (n <=? 0).
    + apply settles_refl.
    + pose proof (bulkLoop_stable (length data) data x n 0 (i + 1) []
                    ltac:(lia) Hlen) as Hst.
      assert (bulkLoop (length data) data n 0 (i + 1) [] ≠ OutOfFuel) as Htot.
      { apply bulkLoop_total; [lia| |unfold len; lia].
        rewrite len_app in Hlen. pose proof (len_nonneg x). lia. }
      destruct (bulkLoop (length data) data n 0 (i + 1) []) as [p'|w|] eqn:Hb;
        simpl in *; [| |congruence].
      * intros Hm. rewrite <- (Hst Hm).
        apply bulkLoop_fuel_mono; [rewrite length_app; lia|].
        rewrite (Hst Hm). discriminate.
      * rewrite <- Hst.
        apply bulkLoop_fuel_mono; [rewrite length_app; lia|].
        rewrite Hst. discriminate.
Qed.

(** ** The raw bytes of a command are a prefix of the buffer *)

Lemma slice0_prefix (data : list ascii) (hi : Z) (raw : list ascii) :
  slice data 0 hi = Done raw → raw = take (length raw) data.
Proof.
  intros H. apply slice_Done in H as (H0 & H1 & -> & Hl).
  unfold len in *. simpl drop in *.
  rewrite length_take. rewrite length_take in Hl.
  f_equal. lia.
Qed.

Lemma rawPrefix_slice0 data hi (f : list ascii → parsed) :
  (∀ raw, (f raw).1.1.1 = raw) →
  rawPrefix data (slice data 0 hi ≫= λ raw, Done (f raw)).
Proof.
  intros Hf. destruct (slice data 0 hi) as [raw|w|] eqn:Hs; simpl; auto.
  specialize (Hf raw). destruct (f raw) as [[[raw' ?] ?] ?]. simpl in Hf.
  subst raw'. eapply slice0_prefix; eauto.
Qed.

Lemma rawPrefix_bind {A} data (m : exec A) (f : A → exec parsed) :
  (∀ a, m = Done a → rawPrefix data (f a)) → rawPrefix data (m ≫= f).
Proof. destruct m; simpl; auto. Qed.

Ltac raw_prefix :=
  repeat first
    [ exact I
    | reflexivity
    | apply (rawPrefix_slice0 _ _ (λ raw, (raw, _, _, _))); intros; reflexivity
    | apply rawPrefix_bind; intros ? ?
    | match goal with
      | |- rawPrefix _ (if ?e then _ else _) => destruct e
      | |- rawPrefix _ (match ?e with Some _ => _ | None => _ end) => destruct e
      end ].

Lemma bulkLoop_prefix (fuel : nat) (data : list ascii) (n j i : Z) args :
  rawPrefix data (bulkLoop fuel data n j i args).
Proof.
  revert j i args. induction fuel as [|fuel IH]; intros; simpl; raw_prefix;
    apply IH.
Qed.

Lemma readBufferedTelnetCommand_prefix (data : list ascii) :
  rawPrefix data (readBufferedTelnetCommand data).
Proof.
  unfold readBufferedTelnetCommand.
  destruct (scanLF data 1); raw_prefix.
  destruct a1 as [? [?|]]; raw_prefix.
Qed.

Lemma readBufferedCommand_prefix (data : list ascii) :
  rawPrefix data (readBufferedCommand data).
Proof.
  unfold readBufferedCommand. raw_prefix.
  - apply readBufferedTelnetCommand_prefix.
  - apply bulkLoop_prefix.
Qed.

Lemma readBufferedCommand_raw (data raw : list ascii) args t e :
  readBufferedCommand data = Done (raw, args, t, e) →
  raw = take (length raw) data ∧ (length raw <= length data)%nat.
Proof.
  intros H. pose proof (readBufferedCommand_prefix data) as Hp.
  rewrite H in Hp. simpl in Hp. split; [exact Hp|].
  rewrite Hp. rewrite length_take. lia.
Qed.

Lemma readOutcome_weaken s w w' res :
  (w <= w')%nat → readOutcome s w res → readOutcome s w' res.
Proof.
  unfold readOutcome. intros Hw.
  destruct (firstCommand s) as [[[[raw args] t] [e|]]|why|]; auto.
  destruct raw; auto.
  intros (flush & r' & H1 & H2 & H3 & H4).
  exists flush, r'. split; [|split; [|split]]; auto; lia.
Qed.

Lemma sourceRead_None src p n rbuf' rd' :
  (0 < length p)%nat → sourceRead src p = (n, None, rbuf', rd') →
  length rbuf' = length p ∧ (n <= length p)%nat ∧
  take n rbuf' ++ concat rd' = concat src ∧
  (sourceWork rd' + n < sourceWork src)%nat.
Proof.
  intros Hp. destruct src as [|c src]; simpl; [discriminate|].
  intros [= <- <- <-].
  assert (length (take (length c `min` length p) c) = (length c `min` length p)%nat)
    as Htl by (rewrite length_take; lia).
  repeat split.
  - rewrite length_app, length_take, length_drop. lia.
  - lia.
  - rewrite take_app_length' by (symmetry; exact Htl).
    destruct (length c <=? length p)%nat eqn:Hle.
    + apply Nat.leb_le in Hle. rewrite Nat.min_l by lia.
      rewrite firstn_all. reflexivity.
    + simpl. rewrite app_assoc, take_drop. reflexivity.
  - destruct (length c <=? length p)%nat eqn:Hle.
    + apply Nat.leb_le in Hle. lia.
    + apply Nat.leb_gt in Hle. simpl. rewrite length_drop. lia.
Qed.

Lemma sourceRead_Some src p n e rbuf' rd' :
  sourceRead src p = (n, Some e, rbuf', rd') → src = [] ∧ e = EOF.
Proof. destruct src; simpl; [intros [= <- <- <- <-]; auto|discriminate]. Qed.

Lemma keepPending_ok (r : CommandReader) :
  wfReader r →
  wfReader (keepPending r) ∧ bufBytes (keepPending r) = bufBytes r ∧
  rd (keepPending r) = rd r ∧
  (bufBytes (keepPending r) = [] ∨ ∃ d, buf (keepPending r) = Owned d).
Proof.
  intros Hwf. pose proof Hwf as [Hp Hb]. unfold keepPending.
  destruct (0 <? len (bufBytes r)) eqn:Hl; simpl.
  - destruct (copied r) eqn:Hc; simpl.
    + split; [exact Hwf|]. split; [reflexivity|]. split; [reflexivity|].
      right.
      destruct (buf r) as [lo hi|d]; [destruct Hb; congruence|eauto].
    + split; [split; [exact Hp|exact I]|].
      split; [reflexivity|]. split; [reflexivity|]. right. eauto.
  - split; [exact Hwf|]. split; [reflexivity|]. split; [reflexivity|].
    left.
    apply Z.ltb_ge in Hl. unfold len in Hl.
    destruct (bufBytes r); [reflexivity|simpl in Hl; lia].
Qed.

Lemma readSource_None (r r2 : CommandReader) :
  wfReader r → (bufBytes r = [] ∨ ∃ d, buf r = Owned d) →
  readSource r = (None, r2) →
  wfReader r2 ∧ stream r2 = stream r ∧
  (readerWork r2 < readerWork r)%nat ∧
  (sourceWork (rd r2) < sourceWork (rd r))%nat.
Proof.
  intros [Hp Hb] Hown. unfold readSource.
  destruct (sourceRead (rd r) (rbuf r)) as [[[n [e|]] rbuf'] rd'] eqn:Hrd;
    [discriminate|].
  destruct (sourceRead_None _ _ _ _ _ Hp Hrd) as (Hlen & Hn & Hcat & Hwork).
  unfold stream, readerWork, wfReader, bufBytes in *.
  destruct (buf r) as [lo hi|d] eqn:Hbuf; simpl in *.
  - destruct Hown as [Hemp | [d Hd]]; [|discriminate].
    destruct Hb as [Hc Hr].
    apply (f_equal length) in Hemp.
    rewrite length_take, length_drop in Hemp. simpl in Hemp.
    replace (hi - lo)%nat with O by lia. simpl.
    intros [= <-]. simpl. rewrite Nat.sub_0_r, drop_0, Hcat.
    repeat split; try lia.
    rewrite length_take. lia.
  - destruct d as [|c d]; simpl.
    + intros [= <-]. simpl. rewrite Nat.sub_0_r, drop_0, Hcat.
      repeat split; try lia.
      rewrite length_take. lia.
    + unfold bufAppend. simpl.
      intros [= <-]. simpl. rewrite <- Hcat.
      repeat split; try lia.
      * rewrite <- app_assoc. reflexivity.
      * rewrite length_app, length_take. lia.
Qed.

Lemma readSource_Some (r r' : CommandReader) e :
  readSource r = (Some e, r') → rd r = [] ∧ e = EOF.
Proof.
  unfold readSource.
  destruct (sourceRead (rd r) (rbuf r)) as [[[n [e'|]] rbuf'] rd'] eqn:Hrd.
  - intros [= <- <-]. eapply sourceRead_Some; eauto.
  - destruct (len _ =? 0); [discriminate|].
    destruct (bufAppend _ _). discriminate.
Qed.

Lemma bufFrom_bytes (r : CommandReader) (k : nat) :
  wfReader r → (k <= length (bufBytes r))%nat →
  let r' := {| rd := rd r; rbuf := rbuf r; buf := bufFrom (buf r) k;
               copied := copied r |} in
  wfReader r' ∧ bufBytes r' = drop k (bufBytes r).
Proof.
  intros [Hp Hb] Hk. unfold wfReader, bufBytes in *. simpl.
  destruct (buf r) as [lo hi|d]; simpl; [|auto].
  destruct Hb as [Hc Hr].
  rewrite length_take, length_drop in Hk.
  repeat split; auto; try lia.
  rewrite skipn_firstn_comm, drop_drop. f_equal. lia.
Qed.

Lemma firstCommand_cons (s : list ascii) :
  s ≠ [] → firstCommand s = readBufferedCommand s.
Proof. destruct s; [congruence|reflexivity]. Qed.

Lemma len_pos_nonempty {A} (l : list A) : (0 <? len l) = true → l ≠ [].
Proof. intros H ->. discriminate. Qed.

Lemma len_zero_empty {A} (l : list A) : (0 <? len l) = false → l = [].
Proof.
  intros H. apply Z.ltb_ge in H. unfold len in H.
  destruct l; [reflexivity|simpl in H; lia].
Qed.

(** The read-more path: the source is at its end, or the reader turns
    into one with the same stream and less work. *)
Lemma readMore_step (r : CommandReader) :
  wfReader r →
  match readSource (keepPending r) with
  | (Some e, _) => e = EOF ∧ rd r = []
  | (None, r2) =>
      wfReader r2 ∧ stream r2 = stream r ∧
      (readerWork r2 < readerWork r)%nat ∧
      (sourceWork (rd r2) < sourceWork (rd r))%nat
  end.
Proof.
  intros Hwf.
  destruct (keepPending_ok r Hwf) as (Hwf1 & Hb1 & Hrd1 & Hown).
  destruct (readSource (keepPending r)) as [[e|] r2] eqn:Hrs.
  - apply readSource_Some in Hrs as [H1 H2]. split; congruence.
  - destruct (readSource_None _ _ Hwf1 Hown Hrs) as (H1 & H2 & H3 & H4).
    unfold stream, readerWork in *. rewrite Hb1, Hrd1 in *. auto.
Qed.

Lemma ReadCommand_stream (fuel : nat) (r : CommandReader) :
  wfReader r → (sourceWork (rd r) < fuel)%nat → len (stream r) < 2 ^ 63 →
  readOutcome (stream r) (readerWork r) (ReadCommand fuel r).
Proof.
  revert r. induction fuel as [|fuel IH]; intros r Hwf Hfuel Hlen; [lia|].
  (* the read-more path, shared by the two places that take it *)
  assert (firstCommand (stream r) = firstCommand (bufBytes r ++ concat (rd r)))
    as _ by reflexivity.
  assert (∀ t, (rd r = [] → firstCommand (stream r) = Done ([], [], t, None) ∨
                 ∃ a, firstCommand (stream r) = Done ([], a, t, None)) →
          readOutcome (stream r) (readerWork r)
            match readSource (keepPending r) with
            | (Some e, r') => Done (([], [], false, Some e), r')
            | (None, r') => ReadCommand fuel r'
            end) as Hmore.
  { intros t Hend. pose proof (readMore_step r Hwf) as Hstep.
    destruct (readSource (keepPending r)) as [[e|] r2].
    - destruct Hstep as [-> Hrd]. unfold readOutcome.
      destruct (Hend Hrd) as [-> | [a ->]]; eauto.
    - destruct Hstep as (Hwf2 & Hs2 & Hw2 & Hsw2).
      rewrite <- Hs2. apply readOutcome_weaken with (readerWork r2); [lia|].
      apply IH; [assumption|lia|rewrite Hs2; assumption]. }
  simpl ReadCommand.
  destruct (0 <? len (bufBytes r)) eqn:Hpos.
  2:{ apply len_zero_empty in Hpos.
      apply (Hmore false). intros Hrd. left.
      unfold stream. rewrite Hpos, Hrd. reflexivity. }
  apply len_pos_nonempty in Hpos as Hne.
  assert (stream r ≠ []) as Hsne
    by (unfold stream; intros [H _]%app_eq_nil; congruence).
  assert (len (bufBytes r) < 2 ^ 63) as Hblen.
  { unfold stream in Hlen. rewrite len_app in Hlen.
    pose proof (len_nonneg (concat (rd r))). lia. }
  pose proof (readBufferedCommand_stable (bufBytes r) (concat (rd r)) Hne Hlen)
    as Hst.
  pose proof (readBufferedCommand_total (bufBytes r) Hblen) as Htot.
  fold (stream r) in Hst.
  destruct (readBufferedCommand (bufBytes r)) as [[[[raw args] t] err]|why|]
    eqn:Hrbc; simpl in Hst |- *; [| |congruence].
  2:{ unfold readOutcome. rewrite firstCommand_cons, Hst by assumption.
      reflexivity. }
  destruct (readBufferedCommand_raw _ _ _ _ _ Hrbc) as [Hpre Hrl].
  destruct err as [e|].
  { unfold readOutcome. rewrite firstCommand_cons by assumption.
    rewrite Hst by (destruct raw; reflexivity). destruct raw; eauto. }
  destruct raw as [|c raw].
  { (* more data needed *)
    replace (len [] =? len (bufBytes r)) with false
      by (symmetry; apply Z.eqb_neq; apply Z.ltb_lt in Hpos;
          unfold len in *; simpl; lia).
    simpl (0 <? len []).
    apply (Hmore t). intros Hrd. right. exists args.
    rewrite firstCommand_cons by assumption.
    unfold stream. rewrite Hrd. simpl concat. rewrite app_nil_r. exact Hrbc. }
  specialize (Hst eq_refl).
  unfold readOutcome. rewrite firstCommand_cons, Hst by assumption.
  destruct (len (c :: raw) =? len (bufBytes r)) eqn:Hall.
  - apply Z.eqb_eq in Hall. unfold len in Hall.
    eexists _, _. split; [reflexivity|].
    split; [split; [apply Hwf|exact I]|].
    unfold stream, readerWork, bufBytes. simpl buf. simpl rd.
    split.
    + fold (bufBytes r).
      rewrite drop_app_length' by lia. reflexivity.
    + fold (bufBytes r). simpl length in *. lia.
  - apply Z.eqb_neq in Hall.
    replace (0 <? len (c :: raw)) with true
      by (symmetry; apply Z.ltb_lt; unfold len; simpl length; lia).
    replace (len (c :: raw) <=? len (bufBytes r)) with true
      by (symmetry; apply Z.leb_le; unfold len; lia).
    destruct (bufFrom_bytes r (length (c :: raw)) Hwf Hrl) as [Hwf' Hb'].
    eexists _, _. split; [reflexivity|].
    split; [exact Hwf'|].
    unfold stream, readerWork. rewrite Hb'. simpl rd.
    split.
    + rewrite drop_app_le by lia. reflexivity.
    + rewrite length_drop. simpl length in *. lia.
Qed.

Lemma sourceWork_concat (src : source) :
  (length (concat src) <= sourceWork src)%nat.
Proof.
  induction src as [|c src IH]; simpl; [lia|].
  rewrite length_app. lia.
Qed.

Lemma stream_length_work (r : CommandReader) :
  (length (stream r) <= readerWork r)%nat.
Proof.
  unfold stream, readerWork. rewrite length_app.
  pose proof (sourceWork_concat (rd r)). lia.
Qed.

Lemma readAll_parseAll (fuel fuel2 : nat) (r : CommandReader) :
  wfReader r → (readerWork r < fuel)%nat → len (stream r) < 2 ^ 63 →
  (length (stream r) < fuel2)%nat →
  readAll fuel r = parseAll fuel2 (stream r) ∧ is_Some (readAll fuel r).
Proof.
  revert fuel2 r.
  induction fuel as [|fuel IH]; intros fuel2 r Hwf Hw Hlen Hf2; [lia|].
  destruct fuel2 as [|fuel2]; [lia|].
  assert (sourceWork (rd r) < S fuel)%nat as Hsw
    by (unfold readerWork in Hw; lia).
  pose proof (ReadCommand_stream (S fuel) r Hwf Hsw Hlen) as Hout.
  unfold readOutcome in Hout.
  cbn [readAll parseAll].
  destruct (firstCommand (stream r)) as [[[[raw args] t] err]|why|] eqn:Hfc;
    [| |contradiction].
  2:{ rewrite Hout. split; [reflexivity|eauto]. }
  destruct raw as [|c raw]; destruct err as [e|].
  - destruct Hout as [r' ->]. split; [reflexivity|eauto].
  - destruct Hout as [r' ->]. split; [reflexivity|eauto].
  - destruct Hout as [r' ->]. split; [reflexivity|eauto].
  - destruct Hout as (flush & r' & -> & Hwf' & Hs' & Hw').
    destruct (IH fuel2 r' Hwf') as [Heq Hsome].
    + lia.
    + rewrite Hs'. unfold len in *. rewrite length_drop. lia.
    + assert (length (c :: raw) <= length (stream r))%nat as Hrl.
      { destruct (stream r) as [|c' s'] eqn:Hs; [discriminate|].
        apply (readBufferedCommand_raw _ _ _ _ _ Hfc). }
      rewrite Hs'. rewrite length_drop.
      change (length (c :: raw)) with (S (length raw)) in *. lia.
    + rewrite <- Hs', <- Heq.
      destruct (readAll fuel r') as [[l e]|]; [split; [reflexivity|eauto]|].
      destruct Hsome as [? [=]].
Qed.

Lemma newCommandReader_wf (src : source) : wfReader (newCommandReader src).
Proof.
  split; [|exact I]. unfold newCommandReader. cbn [rbuf].
  rewrite repeat_length. lia.
Qed.

Lemma newCommandReader_stream (src : source) :
  stream (newCommandReader src) = concat src.
Proof. reflexivity. Qed.

Lemma newCommandReader_work (src : source) :
  readerWork (newCommandReader src) = sourceWork src.
Proof. reflexivity. Qed.

Lemma decoded_parseAll (deliveries : source) :
  len (concat deliveries) < 2 ^ 63 →
  decoded deliveries =
    parseAll (S (length (concat deliveries))) (concat deliveries) ∧
  is_Some (decoded deliveries).
Proof.
  intros Hlen. unfold decoded.
  rewrite <- newCommandReader_stream.
  apply readAll_parseAll.
  - apply newCommandReader_wf.
  - rewrite newCommandReader_work. lia.
  - rewrite newCommandReader_stream. exact Hlen.
  - lia.
Qed.

(** ** Splitting the deliveries does not change the commands *)

(** C2. However a byte sequence is cut into successive deliveries to
    [ReadCommand], the argument lists it decodes, in order, and the way
    the run ends are those of the delivery in one piece; the run does
    end. The length bound is Go's bound on the length of a slice. *)
Theorem split_delivery_same_commands (data : list ascii) (deliveries : source) :
  concat deliveries = data → len data < 2 ^ 63 →
  decoded deliveries = decoded [data] ∧ is_Some (decoded deliveries).
Proof.
  intros Hcat Hlen.
  destruct (decoded_parseAll deliveries) as [H1 Hs]; [rewrite Hcat; exact Hlen|].
  destruct (decoded_parseAll [data]) as [H2 _].
  { simpl. rewrite app_nil_r. exact Hlen. }
  split; [|exact Hs].
  rewrite H1, H2, Hcat. simpl. rewrite app_nil_r. reflexivity.
Qed.

(** ** The two loops never run out of fuel *)

Lemma ReadCommand_progress (fuel : nat) (r : CommandReader) :
  wfReader r → (sourceWork (rd r) < fuel)%nat → len (stream r) < 2 ^ 63 →
  (∃ why, ReadCommand fuel r = Panic why) ∨
  (∃ e r', ReadCommand fuel r = Done (([], [], false, Some e), r')) ∨
  (∃ raw args flush r',
     ReadCommand fuel r = Done ((raw, args, flush, None), r') ∧
     wfReader r' ∧ (readerWork r' < readerWork r)%nat ∧
     len (stream r') < 2 ^ 63).
Proof.
  intros Hwf Hfuel Hlen.
  pose proof (ReadCommand_stream fuel r Hwf Hfuel Hlen) as Hout.
  unfold readOutcome in Hout.
  destruct (firstCommand (stream r)) as [[[[raw args] t] err]|why|];
    [|eauto|contradiction].
  destruct raw as [|c raw]; destruct err as [e|];
    try (destruct Hout as [r' ->]; right; left; eauto).
  destruct Hout as (flush & r' & -> & Hwf' & Hs' & Hw').
  right. right. exists (c :: raw), args, flush, r'.
  repeat split; try assumption; try apply Hwf'.
  rewrite Hs'. unfold len in *. rewrite length_drop. lia.
Qed.

Lemma connLoop_total (unicodeLower : string → string)
    (commands : gmap string Command) (fuel : nat) (r : CommandReader)
    (c : Client) (s : Server) :
  wfReader r → (readerWork r < fuel)%nat → len (stream r) < 2 ^ 63 →
  connLoop unicodeLower fuel commands r c s ≠ OutOfFuel.
Proof.
  revert r c s. induction fuel as [|fuel IH]; intros r c s Hwf Hw Hlen; [lia|].
  assert (sourceWork (rd r) < S fuel)%nat as Hsw
    by (unfold readerWork in Hw; lia).
  cbn [connLoop].
  destruct (ReadCommand_progress (S fuel) r Hwf Hsw Hlen)
    as [[why ->] | [(e & r' & ->) | (raw & args & flush & r' & -> & Hwf' & Hw' & Hl')]];
    unfold mbind, exec_bind; cbn [fst snd].
  - discriminate.
  - destruct e; discriminate.
  - destruct (handleCommand unicodeLower commands (raw, args, flush, None) c s);
      [discriminate|].
    apply IH; [assumption|lia|assumption].
Qed.

(** [handleConn] returns or panics for every connection. *)
Lemma handleConn_total (unicodeLower : string → string)
    (commands : gmap string Command) (conn : source) (server : Server) :
  len (concat conn) < 2 ^ 63 →
  handleConn unicodeLower commands conn server ≠ OutOfFuel.
Proof.
  intros Hlen. unfold handleConn.
  apply bind_not_OutOfFuel; [|discriminate].
  apply connLoop_total.
  - apply newCommandReader_wf.
  - rewrite newCommandReader_work. lia.
  - rewrite newCommandReader_stream. exact Hlen.
Qed.

Lemma replayLoop_total (commands : gmap string Command) (fuel : nat)
    (r : CommandReader) (c : Client) (s : Server) (read : nat) :
  wfReader r → (readerWork r < fuel)%nat → len (stream r) < 2 ^ 63 →
  replayLoop fuel commands r c s read ≠ OutOfFuel.
Proof.
  revert r c s read.
  induction fuel as [|fuel IH]; intros r c s read Hwf Hw Hlen; [lia|].
  assert (sourceWork (rd r) < S fuel)%nat as Hsw
    by (unfold readerWork in Hw; lia).
  cbn [replayLoop].
  destruct (ReadCommand_progress (S fuel) r Hwf Hsw Hlen)
    as [[why ->] | [(e & r' & ->) | (raw & args & flush & r' & -> & Hwf' & Hw' & Hl')]];
    unfold mbind, exec_bind; cbn [fst snd].
  - discriminate.
  - destruct e; discriminate.
  - destruct args as [|name args]; [discriminate|].
    destruct (match commands !! name with
              | Some cmd => _
              | None => _
              end) as [c2 s2].
    apply IH; [assumption|lia|assumption].
Qed.

(** The replay of [Start] ends (log loaded, fatal error or panic) for
    every log file. *)
Lemma Start_total (commands : gmap string Command) (file : list ascii) :
  len file < 2 ^ 63 → Start commands file ≠ OutOfFuel.
Proof.
  intros Hlen. unfold Start.
  apply replayLoop_total.
  - apply newCommandReader_wf.
  - rewrite newCommandReader_work. lia.
  - rewrite newCommandReader_stream.
    destruct file; simpl; [pow2; lia|]. rewrite app_nil_r. exact Hlen.
Qed.

Lemma observe_Done x cmd rest cp :
  observe x = Done (cmd, rest, cp) →
  ∃ r', x = Done (cmd, r') ∧ bufBytes r' = rest ∧ copied r' = cp.
Proof.
  destruct x as [[cmd' r']| |]; simpl; [|discriminate..].
  intros [= -> <- <-]. eauto.
Qed.

(** ** The flush flag *)

(** C4, as the specification words it, fails: a multibulk command that
    arrives over two reads and leaves a second command in the buffer is
    returned with the flag set, though it neither emptied the buffer nor
    was an inline command. *)
Lemma flush_set_on_copied_multibulk :
  ¬ flushAsSpecified 3
      (newCommandReader [take 7 pingFrame; drop 7 pingFrame ++ pingFrame]).
Proof.
  intros H.
  assert (observe (ReadCommand 3
            (newCommandReader [take 7 pingFrame; drop 7 pingFrame ++ pingFrame]))
          = Done ((pingFrame, ["PING"%string], true, None), pingFrame, true))
    as Ho by (vm_compute; reflexivity).
  apply observe_Done in Ho as (r' & Hr & Hb & Hc).
  destruct (H _ _ _ _ Hr) as [Hf _].
  destruct (Hf eq_refl) as [He | Hm].
  - rewrite Hb in He. discriminate.
  - discriminate.
Qed.

(** Two inline commands in one delivery: the first is returned with
    the flag clear, the value of [telnet] being dropped by
    [telnet = telnet]. *)
Lemma flush_clear_on_inline_with_leftover :
  observe (ReadCommand 2 (newCommandReader [b "get a" ++ [LF] ++ b "get b" ++ [LF]]))
  = Done ((b "get a" ++ [LF], ["get"; "a"]%string, false, None),
          b "get b" ++ [LF], false).
Proof. vm_compute. reflexivity. Qed.

(** C4, amended. When [ReadCommand] returns a command, the flag is set
    if the command emptied the buffer; for a multibulk command it is set
    exactly when the command emptied the buffer or the buffer is marked
    as copied, that is, was put together from more than one read. *)
Theorem flush_flag (fuel : nat) (r r' : CommandReader) raw args flush :
  wfReader r →
  ReadCommand fuel r = Done ((raw, args, flush, None), r') →
  (bufBytes r' = [] → flush = true) ∧
  (isMultibulk raw = true →
   (flush = true ↔ bufBytes r' = [] ∨ copied r' = true)).
Proof.
  revert r. induction fuel as [|fuel IH]; intros r Hwf; [discriminate|].
  assert (match readSource (keepPending r) with
          | (Some e, r2) => Done (([], [], false, Some e), r2)
          | (None, r2) => ReadCommand fuel r2
          end = Done ((raw, args, flush, None), r') →
          (bufBytes r' = [] → flush = true) ∧
          (isMultibulk raw = true →
           (flush = true ↔ bufBytes r' = [] ∨ copied r' = true))) as Hmore.
  { pose proof (readMore_step r Hwf) as Hstep.
    destruct (readSource (keepPending r)) as [[e|] r2]; [discriminate|].
    apply IH. apply Hstep. }
  simpl ReadCommand.
  destruct (0 <? len (bufBytes r)) eqn:Hpos; [|exact Hmore].
  destruct (readBufferedCommand (bufBytes r)) as [[[[raw0 args0] t] err]|why|]
    eqn:Hrbc; simpl; [|discriminate..].
  destruct (readBufferedCommand_raw _ _ _ _ _ Hrbc) as [_ Hrl].
  destruct err; [discriminate|].
  destruct (len raw0 =? len (bufBytes r)) eqn:Hall.
  { intros [= <- <- <- <-]. simpl. split; [reflexivity|]. intros _.
    split; auto. }
  destruct (0 <? len raw0) eqn:Hraw; [|exact Hmore].
  destruct (len raw0 <=? len (bufBytes r)); [|discriminate].
  intros [= <- <- <- <-].
  destruct (bufFrom_bytes r (length raw0) Hwf Hrl) as [_ Hb].
  rewrite Hb. simpl copied.
  assert (drop (length raw0) (bufBytes r) ≠ []) as Hleft.
  { intros Hd. apply (f_equal length) in Hd. rewrite length_drop in Hd.
    apply Z.eqb_neq in Hall. unfold len in Hall. simpl in Hd. lia. }
  split; [intros; contradiction|].
  intros _. split; [auto|]. intros [?|?]; [contradiction|assumption].
Qed.

(** ** [register] *)

Lemma registerOpt_write_sticks (l : list ascii) (cmd : Command) :
  Write cmd = true → Read cmd = false →
  Write (foldl registerOpt cmd l) = true ∧
  Read (foldl registerOpt cmd l) = false.
Proof.
  revert cmd. induction l as [|c l IH]; intros cmd Hw Hr; simpl; [auto|].
  apply IH; unfold registerOpt; repeat case_bool_decide; rewrite ?Hw; simpl;
    auto.
Qed.

Lemma registerOpt_with_w (l : list ascii) (cmd : Command) :
  "w"%char ∈ l →
  Write (foldl registerOpt cmd l) = true ∧
  Read (foldl registerOpt cmd l) = false.
Proof.
  revert cmd. induction l as [|c l IH]; intros cmd Hin; simpl.
  - apply elem_of_nil in Hin. contradiction.
  - destruct (decide (c = "w"%char)) as [->|Hc].
    + apply registerOpt_write_sticks; reflexivity.
    + apply IH. apply elem_of_cons in Hin as [?|?]; [congruence|assumption].
Qed.

Lemma registerOpt_without_w (l : list ascii) (cmd : Command) :
  "w"%char ∉ l → Write cmd = false →
  Write (foldl registerOpt cmd l) = false ∧
  (Read (foldl registerOpt cmd l) = true ↔
   Read cmd = true ∨ "r"%char ∈ l).
Proof.
  revert cmd. induction l as [|c l IH]; intros cmd Hin Hw; simpl.
  - split; [assumption|]. split; [auto|].
    intros [?|H]; [assumption|]. apply elem_of_nil in H. contradiction.
  - apply not_elem_of_cons in Hin as [Hc Hin].
    destruct (IH (registerOpt cmd c) Hin) as [IHw IHr].
    { unfold registerOpt.
      repeat case_bool_decide; try congruence; rewrite ?Hw; simpl;
        congruence. }
    split; [assumption|]. rewrite IHr.
    unfold registerOpt. rewrite Hw. simpl.
    repeat case_bool_decide; subst; simpl; rewrite ?elem_of_cons;
      try congruence; intuition congruence.
Qed.

(** C10. For every options string the [Command] that [register] stores
    under the name never has [Read] and [Write] both set: with a [w] in
    the options it has [Write] set and [Read] clear, without one it has
    [Write] clear and [Read] set exactly when the options hold an [r]. *)
Theorem register_read_write_exclusive
    (commands : gmap string Command) (commandName : string)
    (f : handler) (opts : string) :
  ∃ cmd, register commands commandName f opts !! commandName = Some cmd ∧
    Func cmd = f ∧
    ¬ (Read cmd = true ∧ Write cmd = true) ∧
    ("w"%char ∈ list_ascii_of_string opts →
     Write cmd = true ∧ Read cmd = false) ∧
    ("w"%char ∉ list_ascii_of_string opts →
     Write cmd = false ∧
     (Read cmd = true ↔ "r"%char ∈ list_ascii_of_string opts)).
Proof.
  exists (registerCommand f opts). unfold register, registerCommand.
  split; [apply lookup_insert_eq|].
  set (l := list_ascii_of_string opts).
  set (cmd0 := {| Write := false; Read := false; Func := f |}).
  assert (∀ l cmd, Func (foldl registerOpt cmd l) = Func cmd) as Hfunc.
  { clear. induction l as [|c l IH]; intros cmd; simpl; [reflexivity|].
    rewrite IH. unfold registerOpt.
    repeat case_bool_decide; destruct (Write cmd); reflexivity. }
  split; [apply Hfunc|].
  destruct (decide ("w"%char ∈ l)) as [Hin|Hnin].
  - destruct (registerOpt_with_w l cmd0 Hin) as [Hw Hr].
    split; [rewrite Hr; intros [? _]; discriminate|].
    split; [auto|contradiction].
  - destruct (registerOpt_without_w l cmd0 Hnin eq_refl) as [Hw Hr].
    split; [rewrite Hw; intros [_ ?]; discriminate|].
    split; [contradiction|]. intros _. split; [assumption|].
    rewrite Hr. simpl. intuition discriminate.
Qed.

(** ** Reading a buffer of a known shape *)

Lemma index_at (data pre post : list ascii) (c : ascii) (i : Z) :
  data = pre ++ c :: post → i = len pre → index data i = Done c.
Proof.
  intros -> ->. unfold index, len.
  replace (0 <=? Z.of_nat (length pre)) with true
    by (symmetry; apply Z.leb_le; lia).
  replace (Z.of_nat (length pre) <? Z.of_nat (length (pre ++ c :: post)))
    with true
    by (symmetry; apply Z.ltb_lt; rewrite length_app; simpl; lia).
  simpl. rewrite Nat2Z.id.
  rewrite lookup_app_r by lia. rewrite Nat.sub_diag. reflexivity.
Qed.

Lemma slice_at (data pre mid post : list ascii) (lo hi : Z) :
  data = pre ++ mid ++ post → lo = len pre → hi = len pre + len mid →
  slice data lo hi = Done mid.
Proof.
  intros -> -> ->. unfold len.
  rewrite slice_in_range.
  - f_equal. rewrite Nat2Z.id.
    replace (Z.to_nat (_ - _)) with (length mid) by lia.
    rewrite drop_app_length. rewrite take_app_length. reflexivity.
  - lia.
  - unfold len. rewrite !length_app. lia.
Qed.

Lemma scanLF_at (data pre mid post : list ascii) (start : Z) :
  data = pre ++ mid ++ LF :: post → LF ∉ mid → start = len pre →
  scanLF data start = Some (len pre + len mid).
Proof.
  intros -> Hn ->. unfold scanLF, len. rewrite Nat2Z.id.
  rewrite drop_app_length.
  rewrite scanLF_from_skip by assumption.
  reflexivity.
Qed.

(** ** What [ParseInt] and [ParseUint] accept has no line feed *)

Lemma parseDigits_digits (cs : list ascii) (n m : Z) :
  strconv.parseDigits cs n = Some m → Forall (λ c, strconv.isDigit c = true) cs.
Proof.
  revert n. induction cs as [|c cs IH]; intros n; simpl; [constructor|].
  destruct (strconv.isDigit c) eqn:Hd; [|discriminate].
  destruct (_ <=? n); [discriminate|].
  destruct (_ <? _); [discriminate|].
  intros H. constructor; eauto.
Qed.

Lemma ParseUint_no_LF (cs : list ascii) (m : Z) :
  strconv.ParseUint (string_of_list_ascii cs) = Some m → LF ∉ cs.
Proof.
  unfold strconv.ParseUint.
  destruct (string_of_list_ascii cs) eqn:Hs; [discriminate|].
  rewrite <- Hs, list_ascii_of_string_of_list_ascii.
  intros H%parseDigits_digits Hin.
  rewrite Forall_forall in H. apply H in Hin. discriminate.
Qed.

Lemma ParseInt_no_LF (cs : list ascii) (n : Z) :
  strconv.ParseInt (string_of_list_ascii cs) = Some n → LF ∉ cs.
Proof.
  destruct cs as [|c cs]; simpl; [discriminate|].
  destruct (strconv.ParseUint _) as [un|] eqn:Hu; [|discriminate].
  intros _.
  destruct (bool_decide (c = "+"%char) || bool_decide (c = "-"%char)) eqn:Hsign.
  - apply ParseUint_no_LF in Hu.
    apply not_elem_of_cons. split; [|assumption].
    intros <-. discriminate.
  - apply (ParseUint_no_LF (c :: cs)) in Hu. assumption.
Qed.

Ltac list_eq :=
  repeat (progress (simpl; rewrite <- ?app_assoc)); reflexivity.
Ltac len_eq :=
  unfold len in *;
  repeat (progress (rewrite ?length_app; simpl length));
  lia.

(** ** A multibulk header with a count that is not positive *)


(** ** The bulk loop on a request of a known shape *)

Lemma ParseInt_range (s : string) (n : Z) :
  strconv.ParseInt s = Some n → - 2 ^ 63 <= n < 2 ^ 63.
Proof.
  unfold strconv.ParseInt. destruct s as [|c s]; [discriminate|].
  destruct (strconv.ParseUint _) as [un|] eqn:Hu; [|discriminate].
  apply ParseUint_range in Hu.
  destruct (bool_decide (c = "-"%char)); simpl.
  - destruct (2 ^ 63 <? un) eqn:Hc; [discriminate|].
    apply Z.ltb_ge in Hc. intros [= <-]. pow2. lia.
  - destruct (2 ^ 63 <=? un) eqn:Hc; [discriminate|].
    apply Z.leb_gt in Hc. intros [= <-]. pow2. lia.
Qed.

Lemma wrap_int_small (z : Z) : - 2 ^ 63 <= z < 2 ^ 63 → wrap_int z = z.
Proof. intros H. wrap_lia. Qed.

Lemma wrap_uint_small (z : Z) : 0 <= z < 2 ^ 64 → wrap_uint z = z.
Proof. intros H. wrap_lia. Qed.

Section OneBulk.

Variables (data pre post : list ascii) (n j : Z) (args : list string).
Variable fuel : nat.
Hypothesis Hlen : len data < 2 ^ 63.
Hypothesis Hj : j < n.

(** A well-formed argument at index [len pre]: the loop returns the
    command when it was the last one and goes on behind it otherwise. *)
Lemma bulkLoop_good (x : bulk) :
  data = pre ++ wire x ++ post → wfBulk x → - 2 ^ 63 <= n - 1 < 2 ^ 63 →
  bulkLoop (S fuel) data n j (len pre) args =
    if j =? n - 1 then
      Done (pre ++ wire x, args ++ [string_of_list_ascii (payload x)],
            false, None)
    else
      bulkLoop fuel data n (j + 1) (len (pre ++ wire x))
        (args ++ [string_of_list_ascii (payload x)]).
Proof.
  intros Hdata [Hu Ht] Hn. destruct x as [L a t].
  simpl field in *. simpl payload in *. simpl trailer in *.
  remember (pre ++ wire {| field := L; payload := a; trailer := t |}) as rx
    eqn:Hrx.
  unfold wire in *. simpl field in *. simpl payload in *. simpl trailer in *.
  pose proof (ParseUint_no_LF _ _ Hu) as HL.
  set (i := len pre).
  set (i1 := len pre + len ([DOLLAR] ++ L ++ [CR])).
  assert (len data = len pre + (1 + len L + 2 + len a + 2) + len post) as Hld
    by (subst data; len_eq).
  pose proof (len_nonneg pre). pose proof (len_nonneg post).
  pose proof (len_nonneg L). pose proof (len_nonneg a).
  assert ((i =? len data) = false) as F4
    by (apply Z.eqb_neq; subst i; lia).
  assert (index data i = Done DOLLAR) as F5
    by (apply (index_at data pre (L ++ crlf ++ a ++ t ++ post));
          [subst data; list_eq|reflexivity]).
  assert (scanLF data i = Some i1) as F6.
  { apply (scanLF_at data pre ([DOLLAR] ++ L ++ [CR]) (a ++ t ++ post));
      [subst data; list_eq| |reflexivity].
    rewrite !elem_of_app, !list_elem_of_singleton.
    intros [?|[?|?]]; [discriminate|contradiction|discriminate]. }
  assert (index data (i1 - 1) = Done CR) as F7
    by (apply (index_at data (pre ++ [DOLLAR] ++ L) (LF :: a ++ t ++ post));
          [subst data; list_eq|subst i1; len_eq]).
  assert (slice data (i + 1) (i1 - 1) = Done L) as F8
    by (apply (slice_at data (pre ++ [DOLLAR]) L (crlf ++ a ++ t ++ post));
          [subst data; list_eq|subst i; len_eq|subst i i1; len_eq]).
  assert (i1 = len pre + len L + 2) as Hi1 by (subst i1; len_eq).
  assert (wrap_int (wrap_uint (len a + 2)) = len a + 2) as W1
    by (rewrite wrap_uint_small, wrap_int_small; pow2; lia).
  assert (wrap_int (i1 + 1 + wrap_int (len a)) = i1 + 1 + len a) as W2
    by (rewrite (wrap_int_small (len a)), wrap_int_small; pow2; lia).
  assert (wrap_int (i1 + 1 + (len a + 2)) = i1 + 1 + len a + 2) as W3
    by (rewrite wrap_int_small; pow2; lia).
  assert (slice data (i1 + 1) (i1 + 1 + len a) = Done a) as F9
    by (apply (slice_at data (pre ++ [DOLLAR] ++ L ++ crlf) a (t ++ post));
          [subst data; list_eq|len_eq|len_eq]).
  assert (slice data 0 (i1 + 1 + len a + 2) = Done rx) as F10
    by (apply (slice_at data [] rx post);
          [subst data rx; list_eq|len_eq|subst rx; len_eq]).
  assert (i1 + 1 + len a + 2 = len rx) as F11 by (subst rx; len_eq).
  simpl bulkLoop.
  replace (j <? n) with true by (symmetry; apply Z.ltb_lt; lia).
  fold i. rewrite F4, F5. simpl. rewrite F6, F7. simpl. rewrite F8. simpl.
  rewrite Hu, W1.
  replace (len data - (i1 + 1) <? len a + 2) with false
    by (symmetry; apply Z.ltb_ge; lia).
  rewrite W2, F9. simpl. rewrite W3, F10, F11.
  rewrite (wrap_int_small (n - 1)) by assumption.
  destruct (j =? n - 1); reflexivity.
Qed.

(** A length field that is not a number. *)
Lemma bulkLoop_bad_length (L : list ascii) :
  data = pre ++ [DOLLAR] ++ L ++ crlf ++ post → LF ∉ L →
  strconv.ParseUint (string_of_list_ascii L) = None →
  bulkLoop (S fuel) data n j (len pre) args
    = Done (protoErr false "invalid bulk length").
Proof.
  intros Hdata HL Hu.
  set (i := len pre).
  set (i1 := len pre + len ([DOLLAR] ++ L ++ [CR])).
  assert ((i =? len data) = false) as F4
    by (apply Z.eqb_neq; subst i data; len_eq).
  assert (index data i = Done DOLLAR) as F5
    by (apply (index_at data pre (L ++ crlf ++ post));
          [subst data; list_eq|reflexivity]).
  assert (scanLF data i = Some i1) as F6.
  { apply (scanLF_at data pre ([DOLLAR] ++ L ++ [CR]) post);
      [subst data; list_eq| |reflexivity].
    rewrite !elem_of_app, !list_elem_of_singleton.
    intros [?|[?|?]]; [discriminate|contradiction|discriminate]. }
  assert (index data (i1 - 1) = Done CR) as F7
    by (apply (index_at data (pre ++ [DOLLAR] ++ L) (LF :: post));
          [subst data; list_eq|subst i1; len_eq]).
  assert (slice data (i + 1) (i1 - 1) = Done L) as F8
    by (apply (slice_at data (pre ++ [DOLLAR]) L (crlf ++ post));
          [subst data; list_eq|subst i; len_eq|subst i i1; len_eq]).
  simpl bulkLoop.
  replace (j <? n) with true by (symmetry; apply Z.ltb_lt; lia).
  fold i. rewrite F4, F5. simpl. rewrite F6, F7. simpl. rewrite F8. simpl.
  rewrite Hu. reflexivity.
Qed.

(** A length field that announces more bytes than are buffered behind
    it, within the range the signed conversion keeps. *)
Lemma bulkLoop_short (L : list ascii) (n2 : Z) :
  data = pre ++ [DOLLAR] ++ L ++ crlf ++ post →
  strconv.ParseUint (string_of_list_ascii L) = Some n2 →
  n2 < 2 ^ 63 - 2 → len post < n2 + 2 →
  bulkLoop (S fuel) data n j (len pre) args = Done (moreData false).
Proof.
  intros Hdata Hu Hsmall Hshort.
  pose proof (ParseUint_no_LF _ _ Hu) as HL.
  pose proof (ParseUint_range _ _ Hu) as Hr.
  set (i := len pre).
  set (i1 := len pre + len ([DOLLAR] ++ L ++ [CR])).
  assert ((i =? len data) = false) as F4
    by (apply Z.eqb_neq; subst i data; len_eq).
  assert (index data i = Done DOLLAR) as F5
    by (apply (index_at data pre (L ++ crlf ++ post));
          [subst data; list_eq|reflexivity]).
  assert (scanLF data i = Some i1) as F6.
  { apply (scanLF_at data pre ([DOLLAR] ++ L ++ [CR]) post);
      [subst data; list_eq| |reflexivity].
    rewrite !elem_of_app, !list_elem_of_singleton.
    intros [?|[?|?]]; [discriminate|contradiction|discriminate]. }
  assert (index data (i1 - 1) = Done CR) as F7
    by (apply (index_at data (pre ++ [DOLLAR] ++ L) (LF :: post));
          [subst data; list_eq|subst i1; len_eq]).
  assert (slice data (i + 1) (i1 - 1) = Done L) as F8
    by (apply (slice_at data (pre ++ [DOLLAR]) L (crlf ++ post));
          [subst data; list_eq|subst i; len_eq|subst i i1; len_eq]).
  assert (len data - (i1 + 1) = len post) as F9
    by (subst i1 data; len_eq).
  assert (wrap_int (wrap_uint (n2 + 2)) = n2 + 2) as W1
    by (rewrite wrap_uint_small, wrap_int_small; pow2; lia).
  simpl bulkLoop.
  replace (j <? n) with true by (symmetry; apply Z.ltb_lt; lia).
  fold i. rewrite F4, F5. simpl. rewrite F6, F7. simpl. rewrite F8. simpl.
  rewrite Hu, F9, W1.
  replace (len post <? n2 + 2) with true by (symmetry; apply Z.ltb_lt; lia).
  reflexivity.
Qed.

End OneBulk.

Lemma wireAll_cons (x : bulk) (xs : list bulk) :
  wireAll (x :: xs) = wire x ++ wireAll xs.
Proof. reflexivity. Qed.

Lemma wireAll_length (xs : list bulk) :
  (length xs <= length (wireAll xs))%nat.
Proof.
  induction xs as [|x xs IH]; [reflexivity|].
  rewrite wireAll_cons, length_app. unfold wire. simpl length. lia.
Qed.

(** Well-formed arguments, none of them the last of the request: the
    loop reads them all and stands behind them. *)
Lemma bulkLoop_run (xs : list bulk) :
  ∀ (data pre post : list ascii) (n j : Z) (args : list string) (fuel : nat),
    Forall wfBulk xs → data = pre ++ wireAll xs ++ post →
    len data < 2 ^ 63 → 0 < n < 2 ^ 63 → j + len xs < n →
    bulkLoop (length xs + fuel) data n j (len pre) args =
    bulkLoop fuel data n (j + len xs) (len (pre ++ wireAll xs))
      (args ++ bulkArgs xs).
Proof.
  induction xs as [|x xs IH];
    intros data pre post n j args fuel Hwf Hdata Hlen Hn Hj.
  - simpl. unfold wireAll. simpl. rewrite !app_nil_r.
    replace (j + len []) with j by (unfold len; simpl; lia). reflexivity.
  - apply Forall_cons in Hwf as [Hx Hxs].
    assert (len (x :: xs) = 1 + len xs) as Hl by (unfold len; simpl; lia).
    pose proof (len_nonneg xs).
    change (length (x :: xs) + fuel)%nat with (S (length xs + fuel)).
    assert (data = pre ++ wire x ++ wireAll xs ++ post) as Hdata'
      by (rewrite Hdata, wireAll_cons, <- app_assoc; reflexivity).
    assert (- 2 ^ 63 <= n - 1 < 2 ^ 63) as Hrange by (pow2; lia).
    rewrite (bulkLoop_good data pre (wireAll xs ++ post) n j args
               (length xs + fuel) Hlen ltac:(lia) x Hdata' Hx Hrange).
    replace (j =? n - 1) with false by (symmetry; apply Z.eqb_neq; lia).
    rewrite (IH data (pre ++ wire x) post n (j + 1)
               (args ++ [string_of_list_ascii (payload x)]) fuel);
      try assumption; [| |lia].
    + rewrite wireAll_cons, Hl. unfold bulkArgs. simpl map.
      rewrite <- !app_assoc. simpl.
      replace (j + 1 + len xs) with (j + (1 + len xs)) by lia. reflexivity.
    + rewrite Hdata, wireAll_cons, <- !app_assoc. reflexivity.
Qed.

(** The header and [xs] well-formed arguments read, the parser answers
    what the bulk loop answers behind them. *)
Lemma multibulk_prefix (N : list ascii) (n : Z) (xs : list bulk)
    (tail : list ascii) (res : exec parsed) :
  strconv.ParseInt (string_of_list_ascii N) = Some n →
  Forall wfBulk xs → len xs < n →
  let data := [STAR] ++ N ++ crlf ++ wireAll xs ++ tail in
  len data < 2 ^ 63 →
  bulkLoop 1 data n (len xs) (len ([STAR] ++ N ++ crlf ++ wireAll xs))
    (bulkArgs xs) = res →
  res ≠ OutOfFuel →
  readBufferedCommand data = res.
Proof.
  intros Hn Hwf Hk data Hlen Hres Hne.
  pose proof (ParseInt_no_LF _ _ Hn) as HnoLF.
  pose proof (ParseInt_range _ _ Hn) as Hrange.
  pose proof (len_nonneg xs) as Hxs0.
  assert (data = [STAR] ++ N ++ crlf ++ wireAll xs ++ tail) as Hdata
    by reflexivity.
  clearbody data.
  set (rest := wireAll xs ++ tail) in *.
  assert (index data 0 = Done STAR) as F0
    by (apply (index_at data [] (N ++ crlf ++ rest)); [subst; list_eq|len_eq]).
  assert (scanLF data 1 = Some (len [STAR] + len (N ++ [CR]))) as F1.
  { apply (scanLF_at data [STAR] (N ++ [CR]) rest); [subst; list_eq| |len_eq].
    rewrite elem_of_app, list_elem_of_singleton.
    intros [?|?]; [contradiction|discriminate]. }
  assert (index data (len [STAR] + len (N ++ [CR]) - 1) = Done CR) as F2
    by (apply (index_at data ([STAR] ++ N) (LF :: rest));
          [subst; list_eq|len_eq]).
  assert (slice data 1 (len [STAR] + len (N ++ [CR]) - 1) = Done N) as F3
    by (apply (slice_at data [STAR] N (crlf ++ rest));
          [subst; list_eq|len_eq|len_eq]).
  assert (len [STAR] + len (N ++ [CR]) + 1 = len ([STAR] ++ N ++ crlf)) as F4
    by len_eq.
  unfold readBufferedCommand.
  rewrite F0. simpl. rewrite F1, F2. simpl. rewrite F3. simpl.
  rewrite Hn.
  replace (n <=? 0) with false by (symmetry; apply Z.leb_gt; lia).
  rewrite F4.
  assert (bulkLoop (length xs + 1) data n 0 (len ([STAR] ++ N ++ crlf)) [] = res)
    as Hrun.
  { rewrite (bulkLoop_run xs data ([STAR] ++ N ++ crlf) tail n 0 [] 1);
      try assumption; [|subst data rest; list_eq|pow2; lia].
    rewrite <- Hres. simpl. f_equal.
    f_equal. list_eq. }
  rewrite <- Hrun. apply bulkLoop_fuel_mono; [|rewrite Hrun; exact Hne].
  subst data rest. pose proof (wireAll_length xs).
  rewrite !length_app. simpl length. lia.
Qed.

(** X1. A well-formed multibulk request decodes to its arguments and
    consumes exactly its bytes. *)
Lemma multibulk_decoded (N : list ascii) (xs : list bulk) (x : bulk)
    (rest : list ascii) :
  strconv.ParseInt (string_of_list_ascii N) = Some (len (xs ++ [x])) →
  Forall wfBulk (xs ++ [x]) →
  let frame := [STAR] ++ N ++ crlf ++ wireAll (xs ++ [x]) in
  len (frame ++ rest) < 2 ^ 63 →
  readBufferedCommand (frame ++ rest)
    = Done (frame, bulkArgs (xs ++ [x]), false, None).
Proof.
  intros Hn Hwf frame Hlen.
  apply Forall_app in Hwf as [Hxs Hx]. apply Forall_inv in Hx.
  assert (len (xs ++ [x]) = len xs + 1) as Hl by len_eq.
  pose proof (len_nonneg xs) as Hxs0.
  pose proof (ParseInt_range _ _ Hn) as Hrange.
  assert (wireAll (xs ++ [x]) = wireAll xs ++ wire x) as Hw
    by (unfold wireAll; rewrite map_app, concat_app; simpl;
        rewrite app_nil_r; reflexivity).
  assert (frame ++ rest
          = [STAR] ++ N ++ crlf ++ wireAll xs ++ (wire x ++ rest)) as Hshape
    by (subst frame; rewrite Hw; list_eq).
  rewrite Hshape in Hlen |- *.
  apply (multibulk_prefix N (len (xs ++ [x])) xs (wire x ++ rest));
    try assumption; [lia| |discriminate].
  assert (- 2 ^ 63 <= len (xs ++ [x]) - 1 < 2 ^ 63) as Hr1 by (pow2; lia).
  rewrite (bulkLoop_good _ ([STAR] ++ N ++ crlf ++ wireAll xs) rest
             (len (xs ++ [x])) (len xs) (bulkArgs xs) 0
             Hlen ltac:(lia) x ltac:(list_eq) Hx Hr1).
  replace (len xs =? len (xs ++ [x]) - 1) with true
    by (symmetry; apply Z.eqb_eq; lia).
  subst frame. rewrite Hw. unfold bulkArgs. rewrite map_app. simpl.
  f_equal. f_equal. f_equal. f_equal. list_eq.
Qed.

(** Behind well-formed arguments, a length field that is not a number
    is a protocol error. *)
Lemma bad_bulk_length_parsed (N L rest : list ascii) (n : Z)
    (xs : list bulk) :
  strconv.ParseInt (string_of_list_ascii N) = Some n →
  Forall wfBulk xs → len xs < n →
  LF ∉ L → strconv.ParseUint (string_of_list_ascii L) = None →
  let data := [STAR] ++ N ++ crlf ++ wireAll xs ++
              [DOLLAR] ++ L ++ crlf ++ rest in
  len data < 2 ^ 63 →
  readBufferedCommand data = Done (protoErr false "invalid bulk length").
Proof.
  intros Hn Hwf Hk HL Hu data Hlen.
  apply (multibulk_prefix N n xs ([DOLLAR] ++ L ++ crlf ++ rest));
    try assumption; [|discriminate].
  eapply (bulkLoop_bad_length _ ([STAR] ++ N ++ crlf ++ wireAll xs) rest);
    try eassumption. list_eq.
Qed.

(** X2. Behind well-formed arguments, a bulk length the signed
    conversion keeps as it is: with fewer bytes buffered than the
    argument and its line end need, the parser asks for more data. *)
Lemma short_bulk_needs_more_data (N L payload : list ascii) (n n2 : Z)
    (xs : list bulk) :
  strconv.ParseInt (string_of_list_ascii N) = Some n →
  Forall wfBulk xs → len xs < n →
  strconv.ParseUint (string_of_list_ascii L) = Some n2 →
  n2 < 2 ^ 63 - 2 → len payload < n2 + 2 →
  let data := [STAR] ++ N ++ crlf ++ wireAll xs ++
              [DOLLAR] ++ L ++ crlf ++ payload in
  len data < 2 ^ 63 →
  readBufferedCommand data = Done (moreData false).
Proof.
  intros Hn Hwf Hk Hu Hsmall Hshort data Hlen.
  apply (multibulk_prefix N n xs ([DOLLAR] ++ L ++ crlf ++ payload));
    try assumption; [|discriminate].
  eapply (bulkLoop_short _ ([STAR] ++ N ++ crlf ++ wireAll xs) payload);
    try eassumption. list_eq.
Qed.

Lemma firstCommand_app_cons (c : ascii) (l : list ascii) :
  firstCommand (c :: l) = readBufferedCommand (c :: l).
Proof. reflexivity. Qed.

(** ** Requests the connection loop does not dispatch *)


(** C6. A multibulk frame with a bulk-length field that is not a
    number, behind any number of well-formed arguments, is a protocol
    error of the parser; at that point the loop of [handleConn] writes
    the error reply and returns with the server unchanged, and a
    connection that starts with such a frame ends with
    [-ERR Protocol error: invalid bulk length] sent and the server as it
    was. *)
Theorem bad_bulk_length_closes_connection (N L rest : list ascii) (n : Z)
    (xs : list bulk) :
  strconv.ParseInt (string_of_list_ascii N) = Some n →
  Forall wfBulk xs → len xs < n →
  LF ∉ L → strconv.ParseUint (string_of_list_ascii L) = None →
  let frame := [STAR] ++ N ++ crlf ++ wireAll xs ++ [DOLLAR] ++ L ++ crlf in
  len (frame ++ rest) < 2 ^ 63 →
  readBufferedCommand (frame ++ rest)
    = Done (protoErr false "invalid bulk length") ∧
  (∀ (unicodeLower : string → string) (commands : gmap string Command)
     (fuel : nat) (r : CommandReader) (c : Client) (s : Server),
     wfReader r → stream r = frame ++ rest →
     (sourceWork (rd r) < fuel)%nat →
     connLoop unicodeLower fuel commands r c s
       = Done (ReplyError "Protocol error: invalid bulk length" c, s)) ∧
  (∀ (unicodeLower : string → string) (commands : gmap string Command)
     (conn : source) (server : Server),
     concat conn = frame ++ rest →
     handleConn unicodeLower commands conn server
       = Done ({| wr := Bufio []
                          (b "-ERR Protocol error: invalid bulk length" ++ crlf);
                  args := []; raw := [] |}, server)).
Proof.
  intros Hn Hwf Hk HL Hu frame Hlen.
  assert (readBufferedCommand (frame ++ rest)
          = Done (protoErr false "invalid bulk length")) as Hp.
  { assert (frame ++ rest = [STAR] ++ N ++ crlf ++ wireAll xs ++
                            [DOLLAR] ++ L ++ crlf ++ rest) as Hshape
      by (subst frame; list_eq).
    rewrite Hshape in Hlen |- *.
    apply (bad_bulk_length_parsed N L rest n xs); assumption. }
  assert (∀ lower commands fuel r c s,
     wfReader r → stream r = frame ++ rest →
     (sourceWork (rd r) < fuel)%nat →
     connLoop lower fuel commands r c s
       = Done (ReplyError "Protocol error: invalid bulk length" c, s)) as Hloop.
  { intros lower commands fuel r c s Hwfr Hs Hfuel.
    assert (len (stream r) < 2 ^ 63) as Hlen' by (rewrite Hs; exact Hlen).
    pose proof (ReadCommand_stream fuel r Hwfr Hfuel Hlen') as Hout.
    unfold readOutcome in Hout. rewrite Hs in Hout.
    change (frame ++ rest) with
      (STAR :: (N ++ crlf ++ wireAll xs ++ [DOLLAR] ++ L ++ crlf) ++ rest)
      in Hout at 1.
    rewrite firstCommand_app_cons in Hout.
    change (STAR :: (N ++ crlf ++ wireAll xs ++ [DOLLAR] ++ L ++ crlf) ++ rest)
      with (frame ++ rest) in Hout.
    rewrite Hp in Hout.
    remember (ReadCommand fuel r) as res eqn:Hres. simpl in Hout.
    destruct Hout as [r' Hrc].
    destruct fuel as [|fuel]; [lia|].
    cbn [connLoop]. rewrite <- Hres, Hrc. reflexivity. }
  split; [exact Hp|]. split; [exact Hloop|].
  intros lower commands conn server Hc.
  unfold handleConn.
  rewrite (Hloop lower commands (S (sourceWork conn)) (newCommandReader conn)
             {| wr := Bufio [] []; args := []; raw := [] |} server).
  - reflexivity.
  - apply newCommandReader_wf.
  - rewrite newCommandReader_stream. exact Hc.
  - simpl rd. lia.
Qed.

(** ** Where the code departs from the specification *)

(** C1 fails on the code. A live [SET x 1] is looked up through
    [strings.ToLower], runs the handler of [set] and is logged as it
    came; the replay loop of [Start] looks up [args[0]] as it is, finds
    no command [SET] and leaves the keyspace empty. *)
Theorem replay_drops_uppercase_set
    (getCommand delCommand : handler) (unicodeLower : string → string) :
  let commands := commandTable getCommand setCommand delCommand in
  ∃ c s1 s2,
    handleConn unicodeLower commands [setFrame] newServer = Done (c, s1) ∧
    aof s1 = setFrame ∧ aofbuf s1 = [] ∧
    keys s1 = {[ "x"%string := "1"%string ]} ∧
    Start commands (aof s1) = Done (Loaded s2 1) ∧
    keys s2 = ∅ ∧ keys s2 ≠ keys s1.
Proof.
  intros commands. eexists _, _, _.
  split; [vm_compute; reflexivity|].
  split; [reflexivity|]. split; [reflexivity|].
  split; [reflexivity|].
  split; [vm_compute; reflexivity|].
  split; [reflexivity|].
  intros H. apply (f_equal (λ m, m !! "x"%string)) in H.
  vm_compute in H. discriminate.
Qed.

(** Whatever the three handlers are, the replay of the logged
    [SET x 1] calls none of them: it counts one command and loads an
    empty keyspace. *)
Lemma replay_ignores_uppercase_set
    (getCommand setHandler delCommand : handler) :
  Start (commandTable getCommand setHandler delCommand) setFrame
  = Done (Loaded {| mu := []; keys := ∅; aof := setFrame; aofbuf := [];
                    aofmu := [] |} 1).
Proof. vm_compute. reflexivity. Qed.

(** C3 fails on the code. The space inside the quotes of
    [set "a b" 1] ends a token, since the [' '] case does not look at
    [quote]: the line yields four arguments, the second with its opening
    quote and the third empty. *)
Theorem quoted_token_is_split_at_space :
  parseArgsFromTelnetLine (b "set " ++ [DQ] ++ b "a b" ++ [DQ] ++ b " 1")
  = Done (["set"; String DQ "a"; EmptyString; "1"]%string, None).
Proof. vm_compute. reflexivity. Qed.

(** C5 fails on the code. With a declared bulk length of 2^63 - 2 and
    no argument byte buffered, [int(n2+2)] is negative, the test for
    missing bytes passes and the slice panics instead of the parser
    asking for more data. *)
Theorem huge_bulk_length_panics :
  readBufferedCommand
    (b "*1" ++ crlf ++ b "$9223372036854775806" ++ crlf)
  = Panic "slice bounds out of range".
Proof. vm_compute. reflexivity. Qed.

(** C8 fails on the code. The scan for the line feed starts at index
    1, so a buffer that is a single line feed is a request for more data,
    and the line feed becomes content of the next line. *)
Theorem lone_line_feed_is_not_a_line :
  readBufferedCommand [LF] = Done (moreData true) ∧
  readBufferedCommand ([LF] ++ b "get x" ++ [LF])
  = Done ([LF] ++ b "get x" ++ [LF],
          [String LF "get"; "x"]%string, true, None).
Proof. split; vm_compute; reflexivity. Qed.

(** C9 fails on the code. A declared bulk length of 2^64 - 1 becomes
    -1 in [int(n2)] and the slice bounds are reversed; an inline line
    with a space between two quotes slices [line[3:2]]. Both buffers make
    [readBufferedCommand] panic. *)
Theorem readBufferedCommand_can_panic :
  readBufferedCommand
    (b "*1" ++ crlf ++ b "$18446744073709551615" ++ crlf ++ b "x")
  = Panic "slice bounds out of range" ∧
  readBufferedCommand ([DQ] ++ b " " ++ [DQ] ++ [LF])
  = Panic "slice bounds out of range".
Proof. split; vm_compute; reflexivity. Qed.

(** An inline line that is only a carriage return and a line feed is
    the empty command. *)
Lemma crlf_line_is_empty_command (rest : list ascii) :
  readBufferedCommand (crlf ++ rest) = Done (crlf, [], true, None).
Proof.
  remember (crlf ++ rest) as data eqn:Hdata.
  assert (index data 0 = Done CR) as F0
    by (apply (index_at data [] (LF :: rest)); [subst; list_eq|len_eq]).
  assert (scanLF data 1 = Some 1) as F1 by (subst; reflexivity).
  assert (slice data 0 0 = Done []) as F2
    by (apply (slice_at data [] [] data); [reflexivity|len_eq|len_eq]).
  assert (slice data 0 2 = Done crlf) as F3
    by (apply (slice_at data [] crlf rest); [subst; list_eq|len_eq|len_eq]).
  unfold readBufferedCommand. rewrite F0. simpl.
  unfold readBufferedTelnetCommand. rewrite F1.
  change (1 - 1) with 0. change (1 + 1) with 2.
  rewrite F0. simpl. rewrite F2. simpl. rewrite F3. reflexivity.
Qed.

(** ** The theorems at concrete inputs *)

(** One [PING] cut after seven bytes, a second one behind it. *)
Lemma split_delivery_same_commands_witness :
  decoded [take 7 pingFrame; drop 7 pingFrame ++ pingFrame]
    = decoded [pingFrame ++ pingFrame] ∧
  is_Some (decoded [take 7 pingFrame; drop 7 pingFrame ++ pingFrame]).
Proof.
  apply (split_delivery_same_commands (pingFrame ++ pingFrame)
           [take 7 pingFrame; drop 7 pingFrame ++ pingFrame]).
  - reflexivity.
  - vm_compute. reflexivity.
Defined.

(** The first of two [PING]s that arrive over two reads. *)
Lemma flush_flag_witness :
  ∃ r', ReadCommand 3
          (newCommandReader [take 7 pingFrame; drop 7 pingFrame ++ pingFrame])
        = Done ((pingFrame, ["PING"%string], true, None), r') ∧
        (bufBytes r' = [] → true = true) ∧
        (isMultibulk pingFrame = true →
         (true = true ↔ bufBytes r' = [] ∨ copied r' = true)).
Proof.
  assert (observe (ReadCommand 3
            (newCommandReader [take 7 pingFrame; drop 7 pingFrame ++ pingFrame]))
          = Done ((pingFrame, ["PING"%string], true, None), pingFrame, true))
    as Ho by (vm_compute; reflexivity).
  apply observe_Done in Ho as (r' & Hr & _ & _).
  exists r'. split; [exact Hr|].
  apply (flush_flag 3
           (newCommandReader [take 7 pingFrame; drop 7 pingFrame ++ pingFrame])
           r' pingFrame ["PING"%string] true).
  - apply newCommandReader_wf.
  - exact Hr.
Defined.

Lemma no_LF_abc : LF ∉ b "abc".
Proof.
  intros H. repeat (apply elem_of_cons in H as [H|H]; [discriminate|]).
  apply elem_of_nil in H. exact H.
Qed.

(** The frame [*2\r\n$abc\r\n] as the only delivery of a connection. *)
Lemma bad_bulk_length_closes_connection_witness :
  handleConn id ∅ [b "*2" ++ crlf ++ b "$abc" ++ crlf] newServer
  = Done ({| wr := Bufio []
                    (b "-ERR Protocol error: invalid bulk length" ++ crlf);
             args := []; raw := [] |}, newServer).
Proof.
  apply (proj2 (proj2 (bad_bulk_length_closes_connection (b "2") (b "abc") []
                         2 [] eq_refl (Forall_nil_2 _) ltac:(reflexivity)
                         no_LF_abc eq_refl ltac:(reflexivity)))).
  reflexivity.
Defined.


(** ** Well-formed and incomplete multibulk requests *)

(** The frame [*1\r\n$4\r\nPING\r\n] in front of an inline request. *)
Lemma multibulk_decoded_witness :
  readBufferedCommand (pingFrame ++ b "get a" ++ crlf)
  = Done (pingFrame, ["PING"%string], false, None).
Proof.
  apply (multibulk_decoded (b "1") []
           {| field := b "4"; payload := b "PING"; trailer := crlf |}
           (b "get a" ++ crlf)).
  - reflexivity.
  - repeat constructor.
  - reflexivity.
Defined.

(** [*2\r\n$3\r\nget\r\n$5\r\nab]: two of the five bytes are there. *)
Lemma short_bulk_needs_more_data_witness :
  readBufferedCommand (b "*2" ++ crlf ++ b "$3" ++ crlf ++ b "get" ++ crlf
                       ++ b "$5" ++ crlf ++ b "ab")
  = Done (moreData false).
Proof.
  apply (short_bulk_needs_more_data (b "2") (b "5") (b "ab") 2 5
           [{| field := b "3"; payload := b "get"; trailer := crlf |}]).
  - reflexivity.
  - repeat constructor.
  - reflexivity.
  - reflexivity.
  - reflexivity.
  - reflexivity.
  - reflexivity.
Defined.

(** ** Malformed multibulk requests *)

Lemma bulkLoop_wrong_prefix (fuel : nat) (data pre post : list ascii)
    (c : ascii) (n j : Z) (args : list string) :
  data = pre ++ c :: post → c ≠ DOLLAR → j < n →
  bulkLoop (S fuel) data n j (len pre) args
    = Done (protoErr false
              ("expected '$', got '" +:+ string_of_byte c +:+ "'")).
Proof.
  intros Hdata Hc Hj.
  assert ((len pre =? len data) = false) as F4
    by (apply Z.eqb_neq; subst data; len_eq).
  assert (index data (len pre) = Done c) as F5
    by (apply (index_at data pre post); [assumption|reflexivity]).
  simpl bulkLoop.
  replace (j <? n) with true by (symmetry; apply Z.ltb_lt; lia).
  rewrite F4, F5. simpl.
  rewrite bool_decide_eq_false_2 by assumption. reflexivity.
Qed.

(** X3. Where the parser expects the [$] of the next argument and finds
    another byte, behind any number of well-formed arguments, it answers
    the protocol error that names that byte; it does not wait for more
    data. *)
Theorem wrong_bulk_prefix_rejected (N rest : list ascii) (n : Z)
    (xs : list bulk) (c : ascii) :
  strconv.ParseInt (string_of_list_ascii N) = Some n →
  Forall wfBulk xs → len xs < n → c ≠ DOLLAR →
  let data := [STAR] ++ N ++ crlf ++ wireAll xs ++ c :: rest in
  len data < 2 ^ 63 →
  readBufferedCommand data
    = Done (protoErr false
              ("expected '$', got '" +:+ string_of_byte c +:+ "'")).
Proof.
  intros Hn Hwf Hk Hc data Hlen.
  apply (multibulk_prefix N n xs (c :: rest)); try assumption;
    [|discriminate].
  apply (bulkLoop_wrong_prefix 0 _ ([STAR] ++ N ++ crlf ++ wireAll xs) rest);
    [list_eq|assumption..].
Qed.

Lemma wrong_bulk_prefix_rejected_witness :
  readBufferedCommand (b "*2" ++ crlf ++ b "$3" ++ crlf ++ b "get" ++ crlf
                       ++ b "x" ++ crlf)
  = Done (protoErr false "expected '$', got 'x'").
Proof.
  apply (wrong_bulk_prefix_rejected (b "2") crlf 2
           [{| field := b "3"; payload := b "get"; trailer := crlf |}]
           "x"%char eq_refl).
  - repeat constructor.
  - reflexivity.
  - discriminate.
  - reflexivity.
Defined.

(** X4. The header line of a multibulk request, [*] up to the first line
    feed, is a protocol error unless it ends in a carriage return with a
    number [ParseInt] accepts in front of it. *)
Theorem bad_multibulk_header_rejected (M rest : list ascii) :
  LF ∉ M →
  (∀ N n, M = N ++ [CR] →
          strconv.ParseInt (string_of_list_ascii N) ≠ Some n) →
  readBufferedCommand ([STAR] ++ M ++ [LF] ++ rest)
    = Done (protoErr false "invalid multibulk length").
Proof.
  intros HM Hbad.
  remember ([STAR] ++ M ++ [LF] ++ rest) as data eqn:Hdata.
  assert (index data 0 = Done STAR) as F0
    by (apply (index_at data [] (M ++ [LF] ++ rest)); [subst; list_eq|len_eq]).
  assert (scanLF data 1 = Some (len [STAR] + len M)) as F1
    by (apply (scanLF_at data [STAR] M rest); [subst; list_eq|assumption|len_eq]).
  unfold readBufferedCommand. rewrite F0. simpl. rewrite F1.
  destruct M as [|c N _] using rev_ind.
  - assert (index data (len [STAR] + len (@nil ascii) - 1) = Done STAR) as F2
      by (apply (index_at data [] ([LF] ++ rest)); [subst; list_eq|len_eq]).
    rewrite F2. reflexivity.
  - assert (index data (len [STAR] + len (N ++ [c]) - 1) = Done c) as F2
      by (apply (index_at data ([STAR] ++ N) ([LF] ++ rest));
            [subst; list_eq|len_eq]).
    rewrite F2. simpl.
    destruct (decide (c = CR)) as [->|Hc].
    + assert (slice data 1 (len [STAR] + len (N ++ [CR]) - 1) = Done N) as F3
        by (apply (slice_at data [STAR] N ([CR] ++ [LF] ++ rest));
              [subst; list_eq|len_eq|len_eq]).
      simpl. rewrite F3. simpl.
      destruct (strconv.ParseInt (string_of_list_ascii N)) as [n|] eqn:Hn;
        [|reflexivity].
      exfalso. exact (Hbad N n eq_refl Hn).
    + rewrite bool_decide_eq_false_2 by assumption. reflexivity.
Qed.

Lemma bad_multibulk_header_rejected_witness :
  readBufferedCommand (b "*two" ++ crlf ++ b "$3" ++ crlf) 
  = Done (protoErr false "invalid multibulk length").
Proof.
  apply (bad_multibulk_header_rejected (b "two" ++ [CR]) (b "$3" ++ crlf)).
  - intros H. repeat (apply elem_of_cons in H as [H|H]; [discriminate|]).
    apply elem_of_nil in H. exact H.
  - intros N n HN Hp.
    apply (app_inj_tail (b "two") N CR CR) in HN as [<- _].
    discriminate.
Defined.

(** ** Inline requests *)

Lemma telnet_word (w line rest : list ascii) (i : Z) (args : list string)
    (s : Z) (lspace : bool) :
  DQ ∉ w → SP ∉ w →
  telnetArgsLoop line (w ++ rest) i args s lspace false false =
  telnetArgsLoop line rest (i + len w) args s
    (match w with [] => lspace | _ => false end) false false.
Proof.
  revert i lspace. induction w as [|c w IH]; intros i lspace Hq Hs.
  - simpl. replace (i + len []) with i by (unfold len; simpl; lia).
    reflexivity.
  - apply not_elem_of_cons in Hq as [Hq1 Hq2].
    apply not_elem_of_cons in Hs as [Hs1 Hs2].
    simpl. rewrite !bool_decide_eq_false_2 by congruence.
    rewrite IH by assumption.
    replace (i + 1 + len w) with (i + len (c :: w)) by len_eq.
    destruct w; reflexivity.
Qed.

Lemma telnet_words (ws : list (list ascii)) :
  ∀ (line pre : list ascii) (args : list string) (lspace : bool),
    ws ≠ [] → Forall inlineWord ws → line = pre ++ joinSP ws →
    telnetArgsLoop line (joinSP ws) (len pre) args (len pre) lspace
      false false
    = Done (args ++ map string_of_list_ascii ws, None).
Proof.
  induction ws as [|w ws IH]; intros line pre args lspace Hne Hws Hline;
    [congruence|].
  apply Forall_cons in Hws as [(Hw0 & Hsp & Hdq & _ & _) Hws].
  pose proof (len_nonneg pre).
  assert (0 < len w) as Hlw by (destruct w; [congruence|len_eq]).
  destruct ws as [|w2 ws].
  - simpl in *. rewrite <- (app_nil_r w) at 1.
    rewrite telnet_word by assumption. simpl.
    replace (len pre <? len line) with true
      by (symmetry; apply Z.ltb_lt; subst line; len_eq).
    rewrite (slice_at line pre w []); [destruct w; [congruence|reflexivity]| | |].
    + rewrite app_nil_r. assumption.
    + reflexivity.
    + subst line. len_eq.
  - change (joinSP (w :: w2 :: ws)) with (w ++ SP :: joinSP (w2 :: ws)) in *.
    rewrite telnet_word by assumption.
    cbn [telnetArgsLoop].
    rewrite bool_decide_eq_false_2 by discriminate.
    rewrite bool_decide_eq_true_2 by reflexivity.
    rewrite (slice_at line pre w (SP :: joinSP (w2 :: ws)));
      [|assumption|reflexivity|reflexivity].
    simpl mbind.
    replace (len pre + len w + 1) with (len (pre ++ w ++ [SP])) by len_eq.
    rewrite (IH line (pre ++ w ++ [SP])); [|discriminate|assumption|].
    + rewrite <- app_assoc. reflexivity.
    + rewrite Hline. list_eq.
Qed.

(** A line of words joined by single spaces is cut back into these
    words. *)
Lemma parseArgs_words (ws : list (list ascii)) :
  ws ≠ [] → Forall inlineWord ws →
  parseArgsFromTelnetLine (joinSP ws)
    = Done (map string_of_list_ascii ws, None).
Proof.
  intros Hne Hws. unfold parseArgsFromTelnetLine.
  apply (telnet_words ws (joinSP ws) [] [] true); auto.
Qed.

Lemma joinSP_no (c : ascii) (ws : list (list ascii)) :
  c ≠ SP → Forall (λ w, c ∉ w) ws → c ∉ joinSP ws.
Proof.
  intros Hc. induction ws as [|w ws IH]; intros Hws.
  - apply not_elem_of_nil.
  - apply Forall_cons in Hws as [Hw Hws].
    destruct ws as [|w2 ws]; [exact Hw|].
    change (joinSP (w :: w2 :: ws)) with (w ++ SP :: joinSP (w2 :: ws)).
    rewrite elem_of_app, elem_of_cons.
    intros [?|[?|?]]; [contradiction|congruence|].
    apply IH in Hws. contradiction.
Qed.

Lemma joinSP_nonempty (ws : list (list ascii)) :
  ws ≠ [] → Forall inlineWord ws → joinSP ws ≠ [].
Proof.
  intros Hne Hws. destruct ws as [|w ws]; [congruence|].
  apply Forall_cons in Hws as [(Hw0 & _) _].
  destruct ws; simpl; [assumption|].
  destruct w; [congruence|discriminate].
Qed.

(** X5. An inline request of words joined by single spaces and ended
    by a line feed, with or without a carriage return in front of it,
    decodes to these words and consumes the line with its line end. *)
Theorem inline_request_decoded (ws : list (list ascii))
    (term rest : list ascii) :
  ws ≠ [] → Forall inlineWord ws → hd SP (joinSP ws) ≠ STAR →
  term = [LF] ∨ term = crlf →
  readBufferedCommand (joinSP ws ++ term ++ rest)
    = Done (joinSP ws ++ term, map string_of_list_ascii ws, true, None).
Proof.
  intros Hne Hws Hstar Hterm.
  pose proof (joinSP_nonempty ws Hne Hws) as Hl0.
  pose proof (parseArgs_words ws Hne Hws) as Hargs.
  assert (LF ∉ joinSP ws) as HLF.
  { apply joinSP_no; [discriminate|].
    eapply Forall_impl; [exact Hws|]. intros w (_ & _ & _ & _ & H). exact H. }
  assert (CR ∉ joinSP ws) as HCR.
  { apply joinSP_no; [discriminate|].
    eapply Forall_impl; [exact Hws|]. intros w (_ & _ & _ & H & _). exact H. }
  set (line := joinSP ws) in *.
  destruct line as [|c0 mid] eqn:Hline; [congruence|].
  simpl in Hstar.
  apply not_elem_of_cons in HLF as [_ HLFmid].
  remember ((c0 :: mid) ++ term ++ rest) as data eqn:Hdata.
  assert (index data 0 = Done c0) as F0
    by (apply (index_at data [] (mid ++ term ++ rest)); [subst; list_eq|len_eq]).
  assert (0 < len (c0 :: mid)) as Hlpos by len_eq.
  unfold readBufferedCommand. rewrite F0. simpl.
  rewrite bool_decide_eq_false_2 by assumption. simpl.
  unfold readBufferedTelnetCommand.
  destruct Hterm as [-> | ->].
  - remember (len [c0] + len mid) as i eqn:Hi.
    assert (scanLF data 1 = Some i) as F1
      by (subst i; apply (scanLF_at data [c0] mid rest);
            [subst; list_eq|assumption|len_eq]).
    assert (∃ p, index data (i - 1) = Done p ∧ p ≠ CR) as (p & F2 & Hp).
    { destruct (index_in_range data (i - 1)) as (p & Hp1 & Hp2);
        [subst i data; len_eq|].
      exists p. split; [exact Hp1|]. intros ->.
      apply HCR. subst data.
      rewrite lookup_app_l in Hp2 by (unfold len in *; simpl length in *; lia).
      eapply list_elem_of_lookup_2. exact Hp2. }
    assert (slice data 0 i = Done (c0 :: mid)) as F3
      by (apply (slice_at data [] (c0 :: mid) ([LF] ++ rest));
            [subst; list_eq|subst; len_eq|subst; len_eq]).
    assert (slice data 0 (i + 1) = Done ((c0 :: mid) ++ [LF])) as F4
      by (apply (slice_at data [] ((c0 :: mid) ++ [LF]) rest);
            [subst; list_eq|subst; len_eq|subst; len_eq]).
    rewrite F1, F2. simpl mbind.
    rewrite bool_decide_eq_false_2 by assumption.
    rewrite F3. simpl mbind.
    replace (len (c0 :: mid) =? 0) with false
      by (symmetry; apply Z.eqb_neq; lia).
    rewrite Hargs. simpl mbind. rewrite F4. reflexivity.
  - remember (len [c0] + len (mid ++ [CR])) as i eqn:Hi.
    assert (scanLF data 1 = Some i) as F1.
    { subst i. apply (scanLF_at data [c0] (mid ++ [CR]) rest);
        [subst; list_eq| |len_eq].
      rewrite elem_of_app, list_elem_of_singleton.
      intros [?|?]; [contradiction|discriminate]. }
    assert (index data (i - 1) = Done CR) as F2
      by (apply (index_at data (c0 :: mid) (LF :: rest));
            [subst; list_eq|subst; len_eq]).
    assert (slice data 0 (i - 1) = Done (c0 :: mid)) as F3
      by (apply (slice_at data [] (c0 :: mid) (crlf ++ rest));
            [subst; list_eq|subst; len_eq|subst; len_eq]).
    assert (slice data 0 (i + 1) = Done ((c0 :: mid) ++ crlf)) as F4
      by (apply (slice_at data [] ((c0 :: mid) ++ crlf) rest);
            [subst; list_eq|subst; len_eq|subst; len_eq]).
    rewrite F1, F2. simpl mbind.
    rewrite F3. simpl mbind.
    replace (len (c0 :: mid) =? 0) with false
      by (symmetry; apply Z.eqb_neq; lia).
    rewrite Hargs. simpl mbind. rewrite F4. reflexivity.
Qed.

Lemma inline_request_decoded_witness :
  readBufferedCommand (b "set x 1" ++ crlf ++ b "get x" ++ [LF])
  = Done (b "set x 1" ++ crlf, ["set"; "x"; "1"]%string, true, None).
Proof.
  apply (inline_request_decoded [b "set"; b "x"; b "1"] crlf
           (b "get x" ++ [LF])).
  - discriminate.
  - repeat constructor; try discriminate;
      intros H; repeat (apply elem_of_cons in H as [H|H]; [discriminate|]);
      apply elem_of_nil in H; exact H.
  - discriminate.
  - right. reflexivity.
Defined.

(** A stretch of the line without a quote, read outside or inside
    quotes: the loop gets through it without a panic and keeps [quote]. *)
Lemma telnet_unquoted_run (seg : list ascii) :
  ∀ (line rest : list ascii) (i : Z) (args : list string) (s : Z)
    (lspace q : bool),
    DQ ∉ seg → 0 <= s <= i → i + len seg <= len line →
    ∃ args' s' lspace',
      telnetArgsLoop line (seg ++ rest) i args s lspace q false
      = telnetArgsLoop line rest (i + len seg) args' s' lspace' q false ∧
      0 <= s' <= i + len seg.
Proof.
  induction seg as [|c seg IH]; intros line rest i args s lspace q Hq Hs Hl.
  - exists args, s, lspace. simpl.
    replace (i + len []) with i by (unfold len; simpl; lia). auto.
  - apply not_elem_of_cons in Hq as [Hq1 Hq2].
    assert (len (c :: seg) = 1 + len seg) as Hlen by len_eq.
    pose proof (len_nonneg seg).
    simpl. rewrite bool_decide_eq_false_2 by congruence.
    destruct (bool_decide (c = SP)).
    + rewrite slice_in_range by lia. simpl.
      destruct (IH line rest (i + 1)
                  (args ++ [string_of_list_ascii
                              (take (Z.to_nat (i - s)) (drop (Z.to_nat s) line))])
                  (i + 1) true q Hq2 ltac:(lia) ltac:(lia))
        as (args' & s' & lspace' & -> & Hs').
      exists args', s', lspace'. rewrite Hlen.
      replace (i + (1 + len seg)) with (i + 1 + len seg) by lia. auto.
    + destruct (IH line rest (i + 1) args s false q Hq2 ltac:(lia) ltac:(lia))
        as (args' & s' & lspace' & -> & Hs').
      exists args', s', lspace'. rewrite Hlen.
      replace (i + (1 + len seg)) with (i + 1 + len seg) by lia.
      split; [reflexivity|lia].
Qed.

(** X6. An inline line with exactly one double quote is always the
    protocol error [unbalanced quotes in request], wherever the quote
    stands. *)
Theorem lone_quote_rejected (pre post : list ascii) :
  DQ ∉ pre → DQ ∉ post →
  parseArgsFromTelnetLine (pre ++ DQ :: post)
    = Done ([], Some {| msg := "unbalanced quotes in request" |}).
Proof.
  intros Hpre Hpost. unfold parseArgsFromTelnetLine.
  set (line := pre ++ DQ :: post).
  assert (len line = len pre + 1 + len post) as Hlen by (subst line; len_eq).
  pose proof (len_nonneg pre). pose proof (len_nonneg post).
  destruct (telnet_unquoted_run pre line (DQ :: post) 0 [] 0 true false Hpre
              ltac:(lia) ltac:(lia))
    as (args1 & s1 & lspace1 & Hrun1 & Hs1).
  fold line. unfold line at 2. rewrite Hrun1. cbn [telnetArgsLoop].
  rewrite bool_decide_eq_true_2 by reflexivity.
  destruct lspace1; [|reflexivity]. cbn [negb].
  destruct (telnet_unquoted_run post line [] (0 + len pre + 1) args1 s1 false
              true Hpost ltac:(lia) ltac:(lia))
    as (args2 & s2 & lspace2 & Hrun2 & Hs2).
  rewrite app_nil_r in Hrun2. rewrite Hrun2. reflexivity.
Qed.

Lemma lone_quote_rejected_witness :
  parseArgsFromTelnetLine (b "set k " ++ DQ :: b "a b")
  = Done ([], Some {| msg := "unbalanced quotes in request" |}).
Proof.
  apply (lone_quote_rejected (b "set k ") (b "a b")).
  - intros H. repeat (apply elem_of_cons in H as [H|H]; [discriminate|]).
    apply elem_of_nil in H. exact H.
  - intros H. repeat (apply elem_of_cons in H as [H|H]; [discriminate|]).
    apply elem_of_nil in H. exact H.
Defined.

(** ** What a successful [ReadCommand] has done *)

Lemma firstCommand_Done_cons (s raw : list ascii) args t c :
  firstCommand s = Done (c :: raw, args, t, None) →
  readBufferedCommand s = Done (c :: raw, args, t, None) ∧
  s = (c :: raw) ++ drop (length (c :: raw)) s.
Proof.
  intros H. destruct s as [|c' s']; [discriminate|].
  change (firstCommand (c' :: s')) with (readBufferedCommand (c' :: s')) in H.
  split; [exact H|].
  destruct (readBufferedCommand_raw _ _ _ _ _ H) as [Hp _].
  rewrite Hp at 1. rewrite take_drop. reflexivity.
Qed.

Lemma ReadCommand_inv (fuel : nat) (r r' : CommandReader) raw args flush err :
  wfReader r → (sourceWork (rd r) < fuel)%nat → len (stream r) < 2 ^ 63 →
  ReadCommand fuel r = Done ((raw, args, flush, err), r') →
  match err with
  | Some EOF => ∃ a t, firstCommand (stream r) = Done ([], a, t, None)
  | Some (ProtocolError e) =>
      ∃ raw0 a t, firstCommand (stream r) = Done (raw0, a, t, Some e)
  | None =>
      raw ≠ [] ∧
      (∃ t, readBufferedCommand (stream r) = Done (raw, args, t, None)) ∧
      stream r = raw ++ stream r' ∧ wfReader r' ∧
      (readerWork r' < readerWork r)%nat
  end.
Proof.
  intros Hwf Hfuel Hlen Hrc.
  pose proof (ReadCommand_stream fuel r Hwf Hfuel Hlen) as Hout.
  unfold readOutcome in Hout. rewrite Hrc in Hout.
  destruct (firstCommand (stream r)) as [[[[raw0 a] t] e0]|why|] eqn:Hfc;
    [|discriminate|contradiction].
  destruct raw0 as [|c raw0]; destruct e0 as [e0|].
  - destruct Hout as [r0 [= -> -> -> -> ->]]. eauto.
  - destruct Hout as [r0 [= -> -> -> -> ->]]. eauto.
  - destruct Hout as [r0 [= -> -> -> -> ->]]. eauto.
  - destruct Hout as (fl & r0 & [= -> -> -> -> ->] & Hwf' & Hs' & Hw').
    destruct (firstCommand_Done_cons _ _ _ _ _ Hfc) as [Hrbc Hsplit].
    split; [discriminate|]. split; [eauto|].
    split; [rewrite Hs'; exact Hsplit|]. auto.
Qed.

(** X7. A command that [ReadCommand] returns is the command the parser
    finds at the head of the unread bytes (buffer, then source), its raw
    bytes are exactly the bytes taken off them, and the reader keeps its
    buffer discipline. *)
Theorem ReadCommand_consumes_raw (fuel : nat) (r r' : CommandReader)
    raw args flush :
  wfReader r → (sourceWork (rd r) < fuel)%nat → len (stream r) < 2 ^ 63 →
  ReadCommand fuel r = Done ((raw, args, flush, None), r') →
  raw ≠ [] ∧ stream r = raw ++ stream r' ∧ wfReader r' ∧
  ∃ t, readBufferedCommand (stream r) = Done (raw, args, t, None).
Proof.
  intros Hwf Hfuel Hlen Hrc.
  destruct (ReadCommand_inv _ _ _ _ _ _ _ Hwf Hfuel Hlen Hrc)
    as (H1 & H2 & H3 & H4 & _).
  auto.
Qed.

Lemma ReadCommand_consumes_raw_witness :
  ∃ r', ReadCommand 200
          (newCommandReader [take 7 pingFrame; drop 7 pingFrame ++ pingFrame])
        = Done ((pingFrame, ["PING"%string], true, None), r') ∧
        stream (newCommandReader
                  [take 7 pingFrame; drop 7 pingFrame ++ pingFrame])
        = pingFrame ++ stream r'.
Proof.
  assert (observe (ReadCommand 200
            (newCommandReader [take 7 pingFrame; drop 7 pingFrame ++ pingFrame]))
          = Done ((pingFrame, ["PING"%string], true, None), pingFrame, true))
    as Ho by (vm_compute; reflexivity).
  apply observe_Done in Ho as (r' & Hr & _ & _).
  exists r'. split; [exact Hr|].
  apply (ReadCommand_consumes_raw 200 _ r' pingFrame ["PING"%string] true).
  - apply newCommandReader_wf.
  - vm_compute. lia.
  - vm_compute. reflexivity.
  - exact Hr.
Defined.

(** X8. A connection that ends before its first request is complete
    (nothing sent at all included) gets no reply and leaves the server
    as it was. *)
Theorem partial_request_dropped (unicodeLower : string → string)
    (commands : gmap string Command) (conn : source) (server : Server)
    (a : list string) (t : bool) :
  len (concat conn) < 2 ^ 63 →
  firstCommand (concat conn) = Done ([], a, t, None) →
  handleConn unicodeLower commands conn server
    = Done ({| wr := Bufio [] []; args := []; raw := [] |}, server).
Proof.
  intros Hlen Hfc. unfold handleConn.
  pose proof (ReadCommand_stream (S (sourceWork conn)) (newCommandReader conn)
                (newCommandReader_wf conn) ltac:(simpl rd; lia)
                ltac:(rewrite newCommandReader_stream; exact Hlen)) as Hout.
  unfold readOutcome in Hout.
  rewrite newCommandReader_stream, Hfc in Hout. destruct Hout as [r' Hrc].
  cbn [connLoop]. rewrite Hrc. reflexivity.
Qed.

Lemma partial_request_dropped_witness :
  handleConn id ∅ [take 7 pingFrame] newServer
  = Done ({| wr := Bufio [] []; args := []; raw := [] |}, newServer).
Proof.
  apply (partial_request_dropped id ∅ [take 7 pingFrame] newServer [] false).
  - vm_compute. reflexivity.
  - vm_compute. reflexivity.
Defined.

(** ** A command is decided by its own bytes *)

Lemma scanLF_app_inv (d x : list ascii) (i i1 : Z) :
  0 <= i → scanLF (d ++ x) i = Some i1 → i1 < len d → scanLF d i = Some i1.
Proof.
  intros Hi Hs Hlt.
  destruct (scanLF_Some (d ++ x) i i1 Hi Hs) as (Hr & Hl & _).
  destruct (scanLF d i) as [k|] eqn:Hd.
  - destruct (scanLF_Some d i k Hi Hd) as (_ & _ & Hx).
    rewrite Hx in Hs. exact Hs.
  - exfalso. unfold scanLF in Hd.
    apply scanLF_from_None_index in Hd. apply Hd.
    rewrite lookup_app_l in Hl by (unfold len in *; lia).
    apply list_elem_of_lookup. exists (Z.to_nat i1 - Z.to_nat i)%nat.
    rewrite lookup_drop. rewrite <- Hl. f_equal. lia.
Qed.

Lemma bulkLoop_local (fuel : nat) (d x : list ascii) (n j i : Z)
    (args : list string) raw a t :
  2 <= i <= len (d ++ x) → len (d ++ x) < 2 ^ 63 →
  bulkLoop fuel (d ++ x) n j i args = Done (raw, a, t, None) →
  raw ≠ [] → len raw = len d →
  i < len d ∧ bulkLoop fuel d n j i args = Done (raw, a, t, None).
Proof.
  revert j i args.
  induction fuel as [|fuel IH]; intros j i args Hi Hlen H Hraw Hrd;
    [discriminate|].
  pose proof (len_nonneg x) as Hx0.
  simpl bulkLoop in H.
  destruct (j <? n) eqn:Hjn; [|injection H as <-; congruence].
  destruct (i =? len (d ++ x)) eqn:Hend; [injection H as <-; congruence|].
  apply Z.eqb_neq in Hend.
  destruct (index (d ++ x) i) as [c|w|] eqn:Hc; simpl in H; try discriminate.
  destruct (negb (bool_decide (c = DOLLAR))) eqn:Hdol; [discriminate|].
  destruct (scanLF (d ++ x) i) as [i1|] eqn:Hscan.
  2:{ destruct (bulkLoop_at_end fuel (d ++ x) n (j + 1) args) as [E|E];
        rewrite E in H; [injection H as <-; congruence|discriminate]. }
  destruct (scanLF_Some (d ++ x) i i1 ltac:(lia) Hscan) as (Hr & _ & _).
  destruct (index (d ++ x) (i1 - 1)) as [p|w|] eqn:Hp; simpl in H;
    try discriminate.
  destruct (negb (bool_decide (p = CR))) eqn:Hcr; [discriminate|].
  destruct (slice (d ++ x) (i + 1) (i1 - 1)) as [fld|w|] eqn:Hfld;
    simpl in H; try discriminate.
  destruct (strconv.ParseUint (string_of_list_ascii fld)) as [n2|] eqn:Hpu;
    [|discriminate].
  pose proof (ParseUint_range _ _ Hpu) as Hn2.
  destruct (len (d ++ x) - (i1 + 1) <? wrap_int (wrap_uint (n2 + 2)))
    eqn:Hchk; [injection H as <-; congruence|].
  apply Z.ltb_ge in Hchk.
  destruct (bulk_slice_bounds n2 (i1 + 1) (len (d ++ x))) as
    [(Hsmall & Hh & Hi3 & Hfit) | (Hbig & Hrev)]; try lia.
  2:{ rewrite (slice_reversed (d ++ x) _ _ Hrev) in H. discriminate. }
  assert (wrap_int (wrap_uint (n2 + 2)) = n2 + 2) as W1
    by (clear - Hn2 Hsmall; wrap_lia).
  rewrite Hh, Hi3 in H.
  destruct (slice (d ++ x) (i1 + 1) (i1 + 1 + n2)) as [arg|w|] eqn:Harg;
    simpl in H; try discriminate.
  (* where the command ends, and what is left to show on [d] *)
  assert (i1 + 1 + n2 + 2 <= len d ∧
          (if j =? wrap_int (n - 1) then
             slice d 0 (i1 + 1 + n2 + 2)
               ≫= (λ raw0, Done (raw0, args ++ [string_of_list_ascii arg],
                                 false, None))
           else bulkLoop fuel d n (j + 1) (i1 + 1 + n2 + 2)
                  (args ++ [string_of_list_ascii arg]))
          = Done (raw, a, t, None)) as [Hend' Hrest].
  { destruct (j =? wrap_int (n - 1)).
    - destruct (slice (d ++ x) 0 (i1 + 1 + n2 + 2)) as [raw0|w|] eqn:Hr0;
        simpl in H; try discriminate.
      injection H as <- <- <-.
      apply slice_Done in Hr0 as Hr0'. destruct Hr0' as (_ & _ & _ & Hl0).
      split; [lia|].
      rewrite <- (slice_app_l d x) by lia. rewrite Hr0. reflexivity.
    - destruct (IH (j + 1) (i1 + 1 + n2 + 2)
                  (args ++ [string_of_list_ascii arg]) ltac:(lia) Hlen H
                  Hraw Hrd) as [Hlt Hd].
      split; [lia|exact Hd]. }
  split; [lia|].
  simpl bulkLoop. rewrite Hjn.
  replace (i =? len d) with false by (symmetry; apply Z.eqb_neq; lia).
  rewrite <- (index_app_l d x i) by lia. rewrite Hc. simpl. rewrite Hdol.
  rewrite (scanLF_app_inv d x i i1 ltac:(lia) Hscan ltac:(lia)).
  rewrite <- (index_app_l d x (i1 - 1)) by lia. rewrite Hp. simpl.
  rewrite Hcr.
  rewrite <- (slice_app_l d x (i + 1) (i1 - 1)) by lia. rewrite Hfld. simpl.
  rewrite Hpu, Hh, Hi3, W1.
  replace (len d - (i1 + 1) <? n2 + 2) with false
    by (symmetry; apply Z.ltb_ge; lia).
  rewrite <- (slice_app_l d x (i1 + 1) (i1 + 1 + n2)) by lia.
  rewrite Harg. simpl. exact Hrest.
Qed.

Lemma telnet_local (d x : list ascii) raw a t :
  readBufferedTelnetCommand (d ++ x) = Done (raw, a, t, None) →
  raw ≠ [] → len raw = len d →
  readBufferedTelnetCommand d = Done (raw, a, t, None).
Proof.
  unfold readBufferedTelnetCommand. intros H Hraw Hrd.
  destruct (scanLF (d ++ x) 1) as [i|] eqn:Hscan;
    [|injection H as <-; congruence].
  destruct (scanLF_Some (d ++ x) 1 i ltac:(lia) Hscan) as (Hr & _ & _).
  assert (i + 1 = len d) as Hi.
  { destruct (index (d ++ x) (i - 1)) as [p|w|]; simpl in H; try discriminate.
    destruct (if bool_decide (p = CR) then slice (d ++ x) 0 (i - 1)
              else slice (d ++ x) 0 i) as [line|w|]; simpl in H;
      try discriminate.
    assert (∀ (k : list ascii → exec parsed) raw0 a0 t0,
              (∀ r, k r = Done (r, a0, t0, None)) →
              slice (d ++ x) 0 (i + 1) ≫= k = Done (raw0, a, t, None) →
              len raw0 = i + 1) as Hk.
    { intros k raw0 a0 t0 Hk0 E.
      destruct (slice (d ++ x) 0 (i + 1)) as [r0|w|] eqn:Hs; simpl in E;
        try discriminate.
      rewrite Hk0 in E. injection E as ->.
      apply slice_Done in Hs as (_ & _ & _ & Hl). lia. }
    destruct (len line =? 0).
    - rewrite <- Hrd. symmetry.
      apply (Hk (λ r, Done (r, [], true, None)) raw [] true); auto.
    - destruct (parseArgsFromTelnetLine line) as [[a1 [e|]]|w|]; simpl in H;
        try discriminate.
      rewrite <- Hrd. symmetry.
      apply (Hk (λ r, Done (r, a1, true, None)) raw a1 true); auto. }
  rewrite (scanLF_app_inv d x 1 i ltac:(lia) Hscan ltac:(lia)).
  rewrite <- (index_app_l d x (i - 1)) by lia.
  rewrite <- (slice_app_l d x 0 (i - 1)) by lia.
  rewrite <- (slice_app_l d x 0 i) by lia.
  rewrite <- (slice_app_l d x 0 (i + 1)) by lia.
  exact H.
Qed.

(** The parser's answer on a buffer that holds a command and more is
    its answer on the bytes of the command alone. *)
Lemma readBufferedCommand_local (d x : list ascii) raw a t :
  len (d ++ x) < 2 ^ 63 →
  readBufferedCommand (d ++ x) = Done (raw, a, t, None) →
  raw ≠ [] → len raw = len d →
  readBufferedCommand d = Done (raw, a, t, None).
Proof.
  intros Hlen H Hraw Hrd.
  pose proof (len_nonneg x) as Hx0.
  assert (0 < len d) as Hd0
    by (rewrite <- Hrd; destruct raw; [congruence|len_eq]).
  assert (len d < 2 ^ 63) as Hdlen by (rewrite len_app in Hlen; lia).
  unfold readBufferedCommand in *.
  rewrite <- (index_app_l d x 0) by lia.
  destruct (index (d ++ x) 0) as [c0|w|]; simpl in *; try discriminate.
  destruct (negb (bool_decide (c0 = STAR))).
  { apply (telnet_local d x); assumption. }
  destruct (scanLF (d ++ x) 1) as [i|] eqn:Hscan;
    [|injection H as <-; congruence].
  destruct (scanLF_Some (d ++ x) 1 i ltac:(lia) Hscan) as (Hr & _ & _).
  destruct (index (d ++ x) (i - 1)) as [p|w|] eqn:Hp; simpl in H;
    try discriminate.
  destruct (negb (bool_decide (p = CR))) eqn:Hcr; [discriminate|].
  destruct (slice (d ++ x) 1 (i - 1)) as [hdr|w|] eqn:Hh; simpl in H;
    try discriminate.
  destruct (strconv.ParseInt (string_of_list_ascii hdr)) as [n|] eqn:Hn;
    [|discriminate].
  assert (i + 1 <= len d ∧
          (if n <=? 0 then
             slice d 0 (i + 1) ≫= (λ raw0, Done (raw0, [], false, None))
           else bulkLoop (length d) d n 0 (i + 1) [])
          = Done (raw, a, t, None)) as [Hi Hrest].
  { destruct (n <=? 0).
    - destruct (slice (d ++ x) 0 (i + 1)) as [raw0|w|] eqn:Hr0; simpl in H;
        try discriminate.
      injection H as <- <- <-.
      apply slice_Done in Hr0 as Hr0'. destruct Hr0' as (_ & _ & _ & Hl0).
      split; [lia|].
      rewrite <- (slice_app_l d x) by lia. rewrite Hr0. reflexivity.
    - destruct (bulkLoop_local (length (d ++ x)) d x n 0 (i + 1) [] raw a t
                  ltac:(lia) Hlen H Hraw Hrd) as [Hlt Hd].
      split; [lia|]. rewrite <- Hd. symmetry.
      apply bulkLoop_fuel_mono; [rewrite length_app; lia|].
      apply bulkLoop_total; [lia|assumption|unfold len; lia]. }
  rewrite (scanLF_app_inv d x 1 i ltac:(lia) Hscan ltac:(lia)).
  rewrite <- (index_app_l d x (i - 1)) by lia. rewrite Hp. simpl.
  rewrite Hcr.
  rewrite <- (slice_app_l d x 1 (i - 1)) by lia. rewrite Hh. simpl.
  rewrite Hn. exact Hrest.
Qed.

(** X9. The raw bytes of a decoded command decode, on their own and in
    front of any other bytes, to the same command: what is written to
    the log can be read back from it. *)
Theorem raw_bytes_decode_again (data raw rest : list ascii) args t :
  len data < 2 ^ 63 → len (raw ++ rest) < 2 ^ 63 → raw ≠ [] →
  readBufferedCommand data = Done (raw, args, t, None) →
  readBufferedCommand (raw ++ rest) = Done (raw, args, t, None).
Proof.
  intros Hlen Hlen2 Hraw H.
  destruct (readBufferedCommand_raw _ _ _ _ _ H) as [Hp _].
  assert (data = raw ++ drop (length raw) data) as Hsplit
    by (rewrite <- (take_drop (length raw) data) at 1; rewrite <- Hp;
        reflexivity).
  rewrite Hsplit in H, Hlen.
  pose proof (readBufferedCommand_local raw _ raw args t Hlen H Hraw eq_refl)
    as Hown.
  pose proof (readBufferedCommand_stable raw rest Hraw Hlen2) as Hst.
  rewrite Hown in Hst. simpl in Hst. apply Hst.
  destruct raw; [congruence|reflexivity].
Qed.

(** The first of two [PING] frames, read back in front of an inline
    request. *)
Lemma raw_bytes_decode_again_witness :
  readBufferedCommand (pingFrame ++ b "get a" ++ crlf)
  = Done (pingFrame, ["PING"%string], false, None).
Proof.
  apply (raw_bytes_decode_again (pingFrame ++ pingFrame) pingFrame
           (b "get a" ++ crlf) ["PING"%string] false).
  - reflexivity.
  - reflexivity.
  - discriminate.
  - vm_compute. reflexivity.
Defined.

(** ** How the connection loop and the replay loop end *)

(** X10. A protocol error of the parser, wherever in the connection it
    turns up, ends the loop of [handleConn]: the reply is the text of
    [Error] and the server is as before that turn. *)
Theorem protocol_error_closes (unicodeLower : string → string)
    (commands : gmap string Command) (fuel : nat) (r : CommandReader)
    (c : Client) (s : Server) raw a t e :
  wfReader r → (sourceWork (rd r) < fuel)%nat → len (stream r) < 2 ^ 63 →
  firstCommand (stream r) = Done (raw, a, t, Some e) →
  connLoop unicodeLower fuel commands r c s
    = Done (ReplyError ("Protocol error: " +:+ msg e) c, s).
Proof.
  intros Hwf Hfuel Hlen Hfc.
  pose proof (ReadCommand_stream fuel r Hwf Hfuel Hlen) as Hout.
  unfold readOutcome in Hout. rewrite Hfc in Hout.
  assert (∃ r', ReadCommand fuel r
                = Done (([], [], false, Some (ProtocolError e)), r'))
    as [r' Hrc] by (destruct raw; exact Hout).
  destruct fuel as [|fuel]; [lia|].
  cbn [connLoop]. rewrite Hrc. reflexivity.
Qed.

(** A connection whose first line is [*x]. *)
Lemma protocol_error_closes_witness :
  connLoop id 200 ∅ (newCommandReader [b "*x" ++ crlf])
    {| wr := Bufio [] []; args := []; raw := [] |} newServer
  = Done (ReplyError "Protocol error: invalid multibulk length"
            {| wr := Bufio [] []; args := []; raw := [] |}, newServer).
Proof.
  apply (protocol_error_closes id ∅ 200 (newCommandReader [b "*x" ++ crlf])
           {| wr := Bufio [] []; args := []; raw := [] |} newServer
           [] [] false {| msg := "invalid multibulk length" |}).
  - apply newCommandReader_wf.
  - vm_compute. lia.
  - vm_compute. reflexivity.
  - vm_compute. reflexivity.
Defined.

(** X11. A request whose name is [quit] in any casing ends the loop of
    [handleConn] with [+OK] written: the command table is not looked
    at, no lock is taken, nothing is logged, and what the peer sent
    behind it is not read. *)
Theorem quit_closes (unicodeLower : string → string)
    (commands : gmap string Command) (fuel : nat) (r : CommandReader)
    (c : Client) (s : Server) raw a args t :
  wfReader r → (sourceWork (rd r) < fuel)%nat → len (stream r) < 2 ^ 63 →
  firstCommand (stream r) = Done (raw, a :: args, t, None) → raw ≠ [] →
  ToLower unicodeLower a = "quit"%string →
  connLoop unicodeLower fuel commands r c s
    = Done (ReplyString "OK" {| wr := wr c; args := a :: args; raw := raw |},
            s).
Proof.
  intros Hwf Hfuel Hlen Hfc Hraw Hq.
  pose proof (ReadCommand_stream fuel r Hwf Hfuel Hlen) as Hout.
  unfold readOutcome in Hout. rewrite Hfc in Hout.
  destruct raw as [|c0 raw]; [congruence|].
  destruct Hout as (fl & r' & Hrc & _).
  destruct fuel as [|fuel]; [lia|].
  cbn [connLoop]. rewrite Hrc.
  unfold mbind, exec_bind; cbn [fst snd handleCommand hd].
  replace (len (a :: args) =? 0) with false
    by (symmetry; apply Z.eqb_neq; unfold len; simpl; lia).
  rewrite Hq. reflexivity.
Qed.

(** [QUIT] in capitals, with a [set] behind it that is never run. *)
Lemma quit_closes_witness :
  connLoop id 200 ∅
    (newCommandReader [b "QUIT" ++ crlf ++ b "set a 1" ++ crlf])
    {| wr := Bufio [] []; args := []; raw := [] |} newServer
  = Done (ReplyString "OK"
            {| wr := Bufio [] []; args := ["QUIT"%string];
               raw := b "QUIT" ++ crlf |}, newServer).
Proof.
  apply (quit_closes id ∅ 200
           (newCommandReader [b "QUIT" ++ crlf ++ b "set a 1" ++ crlf])
           {| wr := Bufio [] []; args := []; raw := [] |} newServer
           (b "QUIT" ++ crlf) "QUIT"%string [] true).
  - apply newCommandReader_wf.
  - vm_compute. lia.
  - vm_compute. reflexivity.
  - vm_compute. reflexivity.
  - discriminate.
  - vm_compute. reflexivity.
Defined.

(** X12. The replay loop of [Start] does not survive a parse fault:
    where [handleConn] answers the peer and returns, a protocol error
    anywhere in the log ends the process through [log.Fatalf]. *)
Theorem replay_stops_on_protocol_error (commands : gmap string Command)
    (fuel : nat) (r : CommandReader) (c : Client) (s : Server) (read : nat)
    raw a t e :
  wfReader r → (sourceWork (rd r) < fuel)%nat → len (stream r) < 2 ^ 63 →
  firstCommand (stream r) = Done (raw, a, t, Some e) →
  replayLoop fuel commands r c s read = Done (Fatal (ProtocolError e)).
Proof.
  intros Hwf Hfuel Hlen Hfc.
  pose proof (ReadCommand_stream fuel r Hwf Hfuel Hlen) as Hout.
  unfold readOutcome in Hout. rewrite Hfc in Hout.
  assert (∃ r', ReadCommand fuel r
                = Done (([], [], false, Some (ProtocolError e)), r'))
    as [r' Hrc] by (destruct raw; exact Hout).
  destruct fuel as [|fuel]; [lia|].
  cbn [replayLoop]. rewrite Hrc. reflexivity.
Qed.

(** A log whose next line is [*x], one command already replayed. *)
Lemma replay_stops_on_protocol_error_witness :
  replayLoop 200 ∅ (newCommandReader [b "*x" ++ crlf])
    {| wr := Discard; args := []; raw := [] |} newServer 1
  = Done (Fatal (ProtocolError {| msg := "invalid multibulk length" |})).
Proof.
  apply (replay_stops_on_protocol_error ∅ 200
           (newCommandReader [b "*x" ++ crlf])
           {| wr := Discard; args := []; raw := [] |} newServer 1
           [] [] false {| msg := "invalid multibulk length" |}).
  - apply newCommandReader_wf.
  - vm_compute. lia.
  - vm_compute. reflexivity.
  - vm_compute. reflexivity.
Defined.

(** X13. The replay loop of [Start] indexes [args[0]] without the
    length check of [handleConn]: a request with no arguments in the
    log (an empty line, a multibulk header with a count of zero) makes
    it panic. *)
Theorem replay_panics_on_empty_request (commands : gmap string Command)
    (fuel : nat) (r : CommandReader) (c : Client) (s : Server) (read : nat)
    raw t :
  wfReader r → (sourceWork (rd r) < fuel)%nat → len (stream r) < 2 ^ 63 →
  firstCommand (stream r) = Done (raw, [], t, None) → raw ≠ [] →
  replayLoop fuel commands r c s read = Panic "index out of range".
Proof.
  intros Hwf Hfuel Hlen Hfc Hraw.
  pose proof (ReadCommand_stream fuel r Hwf Hfuel Hlen) as Hout.
  unfold readOutcome in Hout. rewrite Hfc in Hout.
  destruct raw as [|c0 raw]; [congruence|].
  destruct Hout as (fl & r' & Hrc & _).
  destruct fuel as [|fuel]; [lia|].
  cbn [replayLoop]. rewrite Hrc. reflexivity.
Qed.

(** A log that holds the header [*0]. *)
Lemma replay_panics_on_empty_request_witness :
  replayLoop 200 ∅ (newCommandReader [b "*0" ++ crlf])
    {| wr := Discard; args := []; raw := [] |} newServer 0
  = Panic "index out of range".
Proof.
  apply (replay_panics_on_empty_request ∅ 200
           (newCommandReader [b "*0" ++ crlf])
           {| wr := Discard; args := []; raw := [] |} newServer 0
           (b "*0" ++ crlf) false).
  - apply newCommandReader_wf.
  - vm_compute. lia.
  - vm_compute. reflexivity.
  - vm_compute. reflexivity.
  - discriminate.
Defined.

(** ** Locks *)

(** The table with [set] alone, as [register] builds it. *)
Lemma setTable_lookup (name : string) (h : Command) :
  register ∅ "set" setCommand "w" !! name = Some h →
  h = {| Write := true; Read := false; Func := setCommand |}.
Proof.
  unfold register. intros H.
  apply lookup_insert_Some in H as [[_ <-] | [_ H]]; [reflexivity|].
  rewrite lookup_empty in H. discriminate.
Qed.

Lemma setCommand_server (c : Client) (s : Server) :
  mu (setCommand c s).2 = mu s ∧ aofmu (setCommand c s).2 = aofmu s ∧
  aof (setCommand c s).2 = aof s ∧ aofbuf (setCommand c s).2 = aofbuf s ∧
  raw (setCommand c s).1 = raw c.
Proof.
  unfold setCommand.
  destruct (args c) as [|a0 [|a1 [|a2 [|a3 l]]]]; simpl; auto.
Qed.

Lemma muFree_app (es fs : list muEvent) :
  muFree es → muFree fs → muFree (es ++ fs).
Proof.
  unfold muFree, muRun. intros He Hf. rewrite foldl_app, He. exact Hf.
Qed.

Lemma muFree_app3 (es : list muEvent) (a b : muEvent) :
  muFree es → muFree [a; b] → muFree ((es ++ [a]) ++ [b]).
Proof.
  intros He Hab. rewrite <- app_assoc. apply muFree_app; assumption.
Qed.

Lemma handleCommand_locks (unicodeLower : string → string)
    (commands : gmap string Command) (cmd : command) (c : Client)
    (s : Server) :
  (∀ name h c0 s0, commands !! name = Some h →
     mu (Func h c0 s0).2 = mu s0 ∧ aofmu (Func h c0 s0).2 = aofmu s0) →
  muFree (mu s) → muFree (aofmu s) →
  muFree (mu (turnServer (handleCommand unicodeLower commands cmd c s))) ∧
  muFree (aofmu (turnServer (handleCommand unicodeLower commands cmd c s))).
Proof.
  intros Hkeep Hmu Hao.
  destruct cmd as [[[raw0 args0] flush] [[|e]|]]; cbn [handleCommand turnServer];
    [auto..|].
  destruct (len args0 =? 0); [auto|].
  case_bool_decide; [auto|].
  assert (∀ c2 s2, muFree (mu s2) → muFree (aofmu s2) →
            muFree (mu (turnServer
              (if flush then let '(c3, s3) := flushPoint c2 s2 in Continue c3 s3
               else Continue c2 s2))) ∧
            muFree (aofmu (turnServer
              (if flush then let '(c3, s3) := flushPoint c2 s2 in Continue c3 s3
               else Continue c2 s2)))) as Hflush.
  { intros c2 s2 H1 H2. destruct flush; [|auto].
    unfold flushPoint. cbn [withMu mu aofbuf aofmu].
    destruct (0 <? len (aofbuf s2)); cbn [turnServer mu aofmu withMu].
    - split; [apply muFree_app3; [assumption|reflexivity]|].
      apply muFree_app; [assumption|reflexivity].
    - split; [apply muFree_app3; [assumption|reflexivity]|assumption]. }
  case_bool_decide.
  { apply Hflush; assumption. }
  unfold dispatch.
  destruct (commands !! ToLower unicodeLower (hd EmptyString args0))
    as [h|] eqn:Hh; [|apply Hflush; assumption].
  set (c1 := {| wr := wr c; args := args0; raw := raw0 |}).
  destruct (Write h) eqn:Hw; [|destruct (Read h) eqn:Hr].
  - destruct (Hkeep _ h c1 (withMu s Lock) Hh) as [K1 K2].
    destruct (Func h c1 (withMu s Lock)) as [c2 s2]. cbn [snd] in K1, K2.
    apply Hflush; cbn [mu aofmu withMu].
    + rewrite K1. cbn [withMu mu]. apply muFree_app3; [assumption|reflexivity].
    + rewrite K2. exact Hao.
  - destruct (Hkeep _ h c1 (withMu s RLock) Hh) as [K1 K2].
    destruct (Func h c1 (withMu s RLock)) as [c2 s2]. cbn [snd] in K1, K2.
    apply Hflush; cbn [mu aofmu withMu].
    + rewrite K1. cbn [withMu mu]. apply muFree_app3; [assumption|reflexivity].
    + rewrite K2. exact Hao.
  - destruct (Hkeep _ h c1 s Hh) as [K1 K2].
    destruct (Func h c1 s) as [c2 s2]. cbn [snd] in K1, K2.
    apply Hflush; [rewrite K1|rewrite K2]; assumption.
Qed.

Lemma connLoop_locks (unicodeLower : string → string)
    (commands : gmap string Command) (fuel : nat) (r : CommandReader)
    (c c' : Client) (s s' : Server) :
  (∀ name h c0 s0, commands !! name = Some h →
     mu (Func h c0 s0).2 = mu s0 ∧ aofmu (Func h c0 s0).2 = aofmu s0) →
  muFree (mu s) → muFree (aofmu s) →
  connLoop unicodeLower fuel commands r c s = Done (c', s') →
  muFree (mu s') ∧ muFree (aofmu s').
Proof.
  intros Hkeep. revert r c s.
  induction fuel as [|fuel IH]; intros r c s Hmu Hao H; [discriminate|].
  cbn [connLoop] in H.
  destruct (ReadCommand (S fuel) r) as [[cmd r']|w|]; cbn in H;
    try discriminate.
  pose proof (handleCommand_locks unicodeLower commands cmd c s Hkeep Hmu Hao)
    as [L1 L2].
  destruct (handleCommand unicodeLower commands cmd c s) as [c2 s2|c2 s2];
    cbn [turnServer] in L1, L2.
  - injection H as <- <-. auto.
  - apply (IH r' c2 s2); assumption.
Qed.

(** X14. If the handlers leave the two mutexes alone, [handleConn]
    uses them as their protocol asks (no [Lock] or [RLock] while it
    holds the lock, no unlock of a lock it does not hold) and holds
    neither when it returns, whatever the peer sent. *)
Theorem handleConn_releases_locks (unicodeLower : string → string)
    (commands : gmap string Command) (conn : source) (server : Server)
    (c' : Client) (s' : Server) :
  (∀ name h c0 s0, commands !! name = Some h →
     mu (Func h c0 s0).2 = mu s0 ∧ aofmu (Func h c0 s0).2 = aofmu s0) →
  muFree (mu server) → muFree (aofmu server) →
  handleConn unicodeLower commands conn server = Done (c', s') →
  muFree (mu s') ∧ muFree (aofmu s').
Proof.
  intros Hkeep Hmu Hao H. unfold handleConn in H.
  destruct (connLoop unicodeLower (S (sourceWork conn)) commands
              (newCommandReader conn)
              {| wr := Bufio [] []; args := []; raw := [] |} server)
    as [[c2 s2]|w|] eqn:Hloop; cbn in H; try discriminate.
  injection H as _ <-.
  eapply connLoop_locks; eassumption.
Qed.

(** A [set] and a flush, then a request the table does not know. *)
Lemma handleConn_releases_locks_witness :
  ∃ c' s',
    handleConn id (register ∅ "set" setCommand "w")
      [b "set a 1" ++ crlf; b "get a" ++ crlf] newServer = Done (c', s') ∧
    muFree (mu s') ∧ muFree (aofmu s').
Proof.
  assert (∃ c' s',
            handleConn id (register ∅ "set" setCommand "w")
              [b "set a 1" ++ crlf; b "get a" ++ crlf] newServer
            = Done (c', s')) as (c' & s' & H)
    by (eexists _, _; vm_compute; reflexivity).
  exists c', s'. split; [exact H|].
  apply (handleConn_releases_locks id (register ∅ "set" setCommand "w")
           [b "set a 1" ++ crlf; b "get a" ++ crlf] newServer c' s').
  - intros name h c0 s0 Hh. apply setTable_lookup in Hh as ->.
    cbn [Func]. pose proof (setCommand_server c0 s0). tauto.
  - reflexivity.
  - reflexivity.
  - exact H.
Defined.

(** ** The command table *)

(** X15. [commandTable] registers [get], [set] and [del] and nothing
    else; [get] runs under the read lock, [set] and [del] under the
    write lock and are the commands that get logged. *)
Theorem commandTable_entries (getCommand setCommand delCommand : handler)
    (name : string) :
  commandTable getCommand setCommand delCommand !! name =
    if bool_decide (name = "del"%string) then
      Some {| Write := true; Read := false; Func := delCommand |}
    else if bool_decide (name = "set"%string) then
      Some {| Write := true; Read := false; Func := setCommand |}
    else if bool_decide (name = "get"%string) then
      Some {| Write := false; Read := true; Func := getCommand |}
    else None.
Proof.
  unfold commandTable, register.
  repeat case_bool_decide; subst.
  - rewrite lookup_insert_eq. reflexivity.
  - rewrite lookup_insert_ne by congruence. rewrite lookup_insert_eq.
    reflexivity.
  - do 2 (rewrite lookup_insert_ne by congruence). rewrite lookup_insert_eq.
    reflexivity.
  - do 3 (rewrite lookup_insert_ne by congruence). apply lookup_empty.
Qed.

(** ** Replaying the log *)

Section Replay.

Variable unicodeLower : string → string.
Variable commands : gmap string Command.
Hypothesis Hlog : handlersKeepLog commands.
Hypothesis Hwr : writersByArgs commands.
Hypothesis Hrd : readersKeepKeys commands.

Lemma flushPoint_log (c : Client) (s : Server) :
  keys (flushPoint c s).2 = keys s ∧
  aof (flushPoint c s).2 ++ aofbuf (flushPoint c s).2 = aof s ++ aofbuf s.
Proof.
  unfold flushPoint. cbn [withMu aofbuf aof keys mu aofmu snd].
  destruct (0 <? len (aofbuf s)); cbn [withMu aofbuf aof keys snd];
    rewrite ?app_nil_r; auto.
Qed.

Lemma dispatch_log (name : string) (c : Client) (s : Server) :
  name = hd EmptyString (args c) →
  (keys (dispatch commands name c s).2 = keys s ∧
   aof (dispatch commands name c s).2 ++ aofbuf (dispatch commands name c s).2
     = aof s ++ aofbuf s) ∨
  ((∃ cmd, commands !! name = Some cmd ∧ Write cmd = true) ∧
   keys (dispatch commands name c s).2 = keyEffect commands (keys s) (args c) ∧
   aof (dispatch commands name c s).2 ++ aofbuf (dispatch commands name c s).2
     = (aof s ++ aofbuf s) ++ raw c).
Proof.
  intros Hname. unfold dispatch.
  destruct (commands !! name) as [cmd|] eqn:Hc; [|left; auto].
  destruct (Write cmd) eqn:Hw.
  - right. split; [eauto|].
    destruct (Hlog name cmd c (withMu s Lock) Hc) as (L1 & L2 & L3).
    pose proof (Hwr name cmd c (withMu s Lock)
                  {| wr := Discard; args := args c; raw := [] |}
                  {| mu := []; keys := keys s; aof := []; aofbuf := [];
                     aofmu := [] |} Hc Hw eq_refl eq_refl) as K.
    destruct (Func cmd c (withMu s Lock)) as [c2 s2].
    cbn [fst snd keys aof aofbuf withMu] in *.
    split.
    + unfold keyEffect. rewrite <- Hname, Hc. exact K.
    + rewrite L1, L2, L3. apply app_assoc.
  - left.
    assert (∀ s1, keys s1 = keys s → aof s1 = aof s → aofbuf s1 = aofbuf s →
              keys (Func cmd c s1).2 = keys s ∧
              aof (Func cmd c s1).2 = aof s ∧
              aofbuf (Func cmd c s1).2 = aofbuf s) as Hkeep.
    { intros s1 E1 E2 E3.
      destruct (Hlog name cmd c s1 Hc) as (L1 & L2 & _).
      rewrite (Hrd name cmd c s1 Hc Hw), L1, L2. auto. }
    destruct (Read cmd).
    + destruct (Hkeep (withMu s RLock) eq_refl eq_refl eq_refl)
        as (K1 & K2 & K3).
      destruct (Func cmd c (withMu s RLock)) as [c2 s2].
      cbn [fst snd keys aof aofbuf withMu] in *. rewrite K1, K2, K3. auto.
    + destruct (Hkeep s eq_refl eq_refl eq_refl) as (K1 & K2 & K3).
      destruct (Func cmd c s) as [c2 s2].
      cbn [fst snd] in *. rewrite K1, K2, K3. auto.
Qed.

(** One turn of the loop of [handleConn] leaves the keyspace and the
    log as they were, or it ran a write command, whose bytes it put
    behind what the log and the staging buffer held. *)
Lemma handleCommand_log (raw0 : list ascii) (args0 : list string)
    (flush : bool) (err : option error) (c : Client) (s : Server) :
  ToLower unicodeLower (hd EmptyString args0) = hd EmptyString args0 →
  let s' := turnServer
              (handleCommand unicodeLower commands (raw0, args0, flush, err)
                 c s) in
  (keys s' = keys s ∧ aof s' ++ aofbuf s' = aof s ++ aofbuf s) ∨
  (err = None ∧
   (∃ name rest cmd, args0 = name :: rest ∧ commands !! name = Some cmd ∧
                     Write cmd = true) ∧
   keys s' = keyEffect commands (keys s) args0 ∧
   aof s' ++ aofbuf s' = (aof s ++ aofbuf s) ++ raw0).
Proof.
  intros Hlow. cbn zeta.
  destruct err as [[|e]|]; cbn [handleCommand turnServer]; [left; auto..|].
  destruct (len args0 =? 0) eqn:Hlen0; [left; auto|].
  rewrite Hlow.
  case_bool_decide; [left; auto|].
  assert (∀ c2 s2,
            keys (turnServer
              (if flush then let '(c3, s3) := flushPoint c2 s2 in Continue c3 s3
               else Continue c2 s2)) = keys s2 ∧
            aof (turnServer
              (if flush then let '(c3, s3) := flushPoint c2 s2 in Continue c3 s3
               else Continue c2 s2)) ++
            aofbuf (turnServer
              (if flush then let '(c3, s3) := flushPoint c2 s2 in Continue c3 s3
               else Continue c2 s2)) = aof s2 ++ aofbuf s2) as Hflush.
  { intros c2 s2. destruct flush; [|auto].
    pose proof (flushPoint_log c2 s2) as K.
    destruct (flushPoint c2 s2) as [c3 s3]. exact K. }
  case_bool_decide.
  { left. destruct (Hflush (ReplyString "PONG"
                              {| wr := wr c; args := args0; raw := raw0 |}) s)
      as [K1 K2]. auto. }
  set (c1 := {| wr := wr c; args := args0; raw := raw0 |}).
  pose proof (dispatch_log (hd EmptyString args0) c1 s eq_refl) as D.
  destruct (dispatch commands (hd EmptyString args0) c1 s) as [c2 s2].
  destruct (Hflush c2 s2) as [K1 K2]. cbn [snd] in D.
  destruct D as [[D1 D2] | ((cmd & Hc & Hw) & D1 & D2)].
  - left. rewrite K1, K2. auto.
  - right. split; [reflexivity|]. split.
    + destruct args0 as [|name rest]; [discriminate|]. eauto 6.
    + rewrite K1, K2. auto.
Qed.

Lemma connLoop_log (fuel : nat) (r : CommandReader) (c c' : Client)
    (s s' : Server) (cmds : list (list string)) (e : stop) :
  wfReader r → (readerWork r < fuel)%nat → len (stream r) < 2 ^ 63 →
  readAll fuel r = Some (cmds, e) →
  Forall (λ a, ToLower unicodeLower (hd EmptyString a) = hd EmptyString a)
    cmds →
  connLoop unicodeLower fuel commands r c s = Done (c', s') →
  ∃ ws, Forall (loggedRequest commands) ws ∧
        aof s' ++ aofbuf s' = (aof s ++ aofbuf s) ++ concat (map fst ws) ∧
        keys s' = foldl (keyEffect commands) (keys s) (map snd ws) ∧
        (length (concat (map fst ws)) <= length (stream r))%nat.
Proof.
  revert r c s cmds.
  induction fuel as [|fuel IH]; intros r c s cmds Hwf Hw Hlen Hall Hlow H;
    [lia|].
  assert (sourceWork (rd r) < S fuel)%nat as Hsw
    by (unfold readerWork in Hw; lia).
  cbn [connLoop readAll] in H, Hall.
  destruct (ReadCommand (S fuel) r) as [[[[[raw0 args0] flush] err] r']|w|]
    eqn:Hrc; unfold mbind, exec_bind in H; cbn [fst snd] in H;
    try discriminate.
  pose proof (ReadCommand_inv (S fuel) r r' raw0 args0 flush err Hwf Hsw Hlen
                Hrc) as Hinv.
  assert (∃ ws, Forall (loggedRequest commands) ws ∧
            aof s ++ aofbuf s = (aof s ++ aofbuf s) ++ concat (map fst ws) ∧
            keys s = foldl (keyEffect commands) (keys s) (map snd ws) ∧
            (length (concat (map fst ws)) <= length (stream r))%nat) as Hnil.
  { exists []. simpl. rewrite app_nil_r. repeat split; [constructor|lia]. }
  destruct err as [err|].
  { destruct err; cbn [handleCommand] in H; injection H as <- <-; exact Hnil. }
  destruct Hinv as (Hraw & [t Hrbc] & Hsplit & Hwf' & Hw').
  destruct (readAll fuel r') as [[l e']|] eqn:Hall'; [|discriminate].
  injection Hall as <- <-.
  apply Forall_cons in Hlow as [Hlow0 Hlow'].
  assert (len (stream r') < 2 ^ 63) as Hlen'
    by (rewrite Hsplit, len_app in Hlen; pose proof (len_nonneg raw0); lia).
  pose proof (handleCommand_log raw0 args0 flush None c s Hlow0) as T.
  cbn zeta in T.
  assert (∃ ws, Forall (loggedRequest commands) ws ∧
            aof s' ++ aofbuf s'
              = (aof (turnServer (handleCommand unicodeLower commands
                                    (raw0, args0, flush, None) c s)) ++
                 aofbuf (turnServer (handleCommand unicodeLower commands
                                       (raw0, args0, flush, None) c s))) ++
                concat (map fst ws) ∧
            keys s'
              = foldl (keyEffect commands)
                  (keys (turnServer (handleCommand unicodeLower commands
                                       (raw0, args0, flush, None) c s)))
                  (map snd ws) ∧
            (length (concat (map fst ws)) <= length (stream r'))%nat)
    as (ws & Hws & Hl & Hk & Hb).
  { destruct (handleCommand unicodeLower commands (raw0, args0, flush, None)
                c s) as [c2 s2|c2 s2]; cbn [turnServer].
    - injection H as <- <-. exists []. simpl. rewrite app_nil_r.
      repeat split; [constructor|lia].
    - apply (IH r' c2 s2 l Hwf' ltac:(lia) Hlen' Hall' Hlow' H). }
  assert (length (stream r) = length raw0 + length (stream r'))%nat as Hsz
    by (rewrite Hsplit at 1; apply length_app).
  destruct T as [[T1 T2] | (_ & Hreg & T1 & T2)].
  - exists ws. rewrite <- T1, <- T2. repeat split; auto. lia.
  - exists ((raw0, args0) :: ws). split; [|split; [|split]].
    + constructor; [|exact Hws]. split; [exact Hraw|]. split; [|exact Hreg].
      exists t. cbn [fst snd].
      apply (readBufferedCommand_local raw0 (stream r'));
        [rewrite <- Hsplit; exact Hlen| rewrite <- Hsplit; exact Hrbc
        | exact Hraw | reflexivity].
    + cbn [map fst concat]. rewrite Hl, T2. rewrite <- !app_assoc.
      reflexivity.
    + cbn [map snd foldl]. rewrite Hk, T1. reflexivity.
    + cbn [map fst concat]. rewrite length_app. lia.
Qed.

Lemma replayLoop_log (ws : list (list ascii * list string)) :
  Forall (loggedRequest commands) ws →
  ∀ (fuel : nat) (r : CommandReader) (c : Client) (s : Server) (read : nat),
    wfReader r → (readerWork r < fuel)%nat →
    stream r = concat (map fst ws) → len (stream r) < 2 ^ 63 →
    ∃ s2, replayLoop fuel commands r c s read
            = Done (Loaded s2 (read + length ws)) ∧
          keys s2 = foldl (keyEffect commands) (keys s) (map snd ws).
Proof.
  induction ws as [|[raw0 args0] ws IH]; intros Hws fuel r c s read Hwf Hw
    Hstream Hlen.
  - assert (sourceWork (rd r) < fuel)%nat as Hsw
      by (unfold readerWork in Hw; lia).
    pose proof (ReadCommand_stream fuel r Hwf Hsw Hlen) as Hout.
    unfold readOutcome in Hout. rewrite Hstream in Hout. cbn in Hout.
    destruct Hout as [r' Hrc].
    destruct fuel as [|fuel]; [lia|].
    exists s. cbn [replayLoop]. rewrite Hrc. cbn.
    rewrite Nat.add_0_r. auto.
  - apply Forall_cons in Hws as [(Hraw & [t Hrbc] & name & rest & cmd & Hargs
                                  & Hc & Hwc) Hws].
    cbn [fst snd] in *. subst args0.
    cbn [map fst concat] in Hstream.
    assert (sourceWork (rd r) < fuel)%nat as Hsw
      by (unfold readerWork in Hw; lia).
    pose proof (ReadCommand_stream fuel r Hwf Hsw Hlen) as Hout.
    unfold readOutcome in Hout.
    assert (firstCommand (stream r) = Done (raw0, name :: rest, t, None))
      as Hfc.
    { rewrite Hstream.
      rewrite firstCommand_cons by (destruct raw0; [congruence|discriminate]).
      pose proof (readBufferedCommand_stable raw0 (concat (map fst ws)) Hraw)
        as Hst.
      rewrite <- Hstream in Hst. specialize (Hst Hlen).
      rewrite Hrbc, Hstream in Hst. apply Hst.
      destruct raw0; [congruence|reflexivity]. }
    rewrite Hfc in Hout.
    destruct raw0 as [|c0 raw0]; [congruence|].
    destruct Hout as (fl & r' & Hrc & Hwf' & Hs' & Hw').
    rewrite Hstream, drop_app_length in Hs'.
    destruct fuel as [|fuel]; [lia|].
    cbn [replayLoop]. rewrite Hrc.
    unfold mbind, exec_bind; cbn [fst snd]. rewrite Hc.
    pose proof (Hwr name cmd
                  {| wr := wr c; args := name :: rest; raw := c0 :: raw0 |} s
                  {| wr := Discard; args := name :: rest; raw := [] |}
                  {| mu := []; keys := keys s; aof := []; aofbuf := [];
                     aofmu := [] |} Hc Hwc eq_refl eq_refl) as K.
    destruct (Func cmd {| wr := wr c; args := name :: rest;
                          raw := c0 :: raw0 |} s) as [c2 s2].
    cbn [snd] in K.
    assert (len (stream r') < 2 ^ 63) as Hlen'.
    { rewrite Hstream, len_app in Hlen. rewrite Hs'.
      pose proof (len_nonneg (c0 :: raw0)). lia. }
    destruct (IH Hws fuel r' c2 s2 (S read) Hwf' ltac:(lia) Hs' Hlen')
      as (s3 & Hrun & Hk).
    exists s3. split.
    + rewrite Hrun. cbn [length]. rewrite Nat.add_succ_r. reflexivity.
    + rewrite Hk. cbn [map snd foldl]. f_equal.
      rewrite K. unfold keyEffect. cbn [hd]. rewrite Hc. reflexivity.
Qed.

End Replay.

(** X16. Replay rebuilds the keyspace. A server that starts empty and
    serves one connection ends with some keyspace and with some bytes
    in its log and staging buffer; [Start] on these bytes loads them
    without a fault and ends with the same keyspace. This needs that
    request names arrive in the casing [strings.ToLower] gives them
    (the replay loop looks names up as they are written), and of the
    handlers that they leave the log alone, that a write handler's
    keyspace depends on the arguments and the keyspace only, and that
    the other handlers do not change the keyspace. *)
Theorem replay_reproduces_live (unicodeLower : string → string)
    (commands : gmap string Command) (conn : source)
    (cmds : list (list string)) (e : stop) (c' : Client) (s' : Server) :
  handlersKeepLog commands → writersByArgs commands →
  readersKeepKeys commands →
  len (concat conn) < 2 ^ 63 →
  decoded conn = Some (cmds, e) →
  Forall (λ a, ToLower unicodeLower (hd EmptyString a) = hd EmptyString a)
    cmds →
  handleConn unicodeLower commands conn newServer = Done (c', s') →
  ∃ s2 n, Start commands (aof s' ++ aofbuf s') = Done (Loaded s2 n) ∧
          keys s2 = keys s'.
Proof.
  intros Hlog Hwr Hrd Hlen Hdec Hlow H.
  unfold handleConn in H.
  destruct (connLoop unicodeLower (S (sourceWork conn)) commands
              (newCommandReader conn)
              {| wr := Bufio [] []; args := []; raw := [] |} newServer)
    as [[c2 s2]|w|] eqn:Hloop; cbn in H; try discriminate.
  injection H as _ <-.
  destruct (connLoop_log unicodeLower commands Hlog Hwr Hrd
              (S (sourceWork conn)) (newCommandReader conn) _ c2 _ s2 cmds e
              (newCommandReader_wf conn)
              ltac:(rewrite newCommandReader_work; lia)
              ltac:(rewrite newCommandReader_stream; exact Hlen)
              Hdec Hlow Hloop) as (ws & Hws & Hl & Hk & Hb).
  cbn [newServer aof aofbuf keys app] in Hl, Hk.
  rewrite newCommandReader_stream in Hb.
  set (file := aof s2 ++ aofbuf s2) in *.
  assert (concat (fileSource file) = file) as Hfile
    by (destruct file; [reflexivity|unfold fileSource, concat;
        apply app_nil_r]).
  unfold Start.
  destruct (replayLoop_log commands Hwr ws Hws
              (S (sourceWork (fileSource file)))
              (newCommandReader (fileSource file))
              {| wr := Discard; args := []; raw := [] |}
              {| mu := []; keys := ∅; aof := file; aofbuf := [];
                 aofmu := [] |} O
              (newCommandReader_wf _)
              ltac:(rewrite newCommandReader_work; lia)
              ltac:(rewrite newCommandReader_stream, Hfile; exact Hl)
              ltac:(rewrite newCommandReader_stream, Hfile, Hl;
                    unfold len in *; lia))
    as (s3 & Hrun & Hk3).
  exists s3, (0 + length ws)%nat. split; [exact Hrun|].
  rewrite Hk3, Hk. reflexivity.
Qed.

Lemma setTable_keeps_log : handlersKeepLog (register ∅ "set" setCommand "w").
Proof.
  intros name cmd c0 s0 Hc. apply setTable_lookup in Hc as ->.
  cbn [Func]. pose proof (setCommand_server c0 s0). tauto.
Qed.

Lemma setTable_by_args : writersByArgs (register ∅ "set" setCommand "w").
Proof.
  intros name cmd c1 s1 c2 s2 Hc _ Ha Hk. apply setTable_lookup in Hc as ->.
  cbn [Func]. unfold setCommand. rewrite Ha.
  destruct (args c2) as [|a0 [|a1 [|a2 [|a3 l]]]]; simpl; try assumption.
  rewrite Hk. reflexivity.
Qed.

Lemma setTable_readers : readersKeepKeys (register ∅ "set" setCommand "w").
Proof.
  intros name cmd c0 s0 Hc Hw. apply setTable_lookup in Hc as ->.
  discriminate.
Qed.

(** Two [set] requests, one inline and one multibulk, in two
    deliveries, with a [ping] between them. *)
Lemma replay_reproduces_live_witness :
  ∃ c' s' s2 n,
    handleConn id (register ∅ "set" setCommand "w")
      [b "set a 1" ++ crlf ++ b "ping" ++ crlf;
       b "*3" ++ crlf ++ b "$3" ++ crlf ++ b "set" ++ crlf ++
       b "$1" ++ crlf ++ b "b" ++ crlf ++ b "$1" ++ crlf ++ b "2" ++ crlf]
      newServer = Done (c', s') ∧
    keys s' = <["b"%string := "2"%string]> (<["a"%string := "1"%string]> ∅) ∧
    Start (register ∅ "set" setCommand "w") (aof s' ++ aofbuf s')
      = Done (Loaded s2 n) ∧
    keys s2 = keys s'.
Proof.
  set (conn := [b "set a 1" ++ crlf ++ b "ping" ++ crlf;
                b "*3" ++ crlf ++ b "$3" ++ crlf ++ b "set" ++ crlf ++
                b "$1" ++ crlf ++ b "b" ++ crlf ++ b "$1" ++ crlf ++
                b "2" ++ crlf]).
  assert (∃ c' s',
            handleConn id (register ∅ "set" setCommand "w") conn newServer
            = Done (c', s') ∧
            keys s' = <["b"%string := "2"%string]>
                        (<["a"%string := "1"%string]> ∅))
    as (c' & s' & H & Hkeys)
    by (eexists _, _; split; vm_compute; reflexivity).
  assert (decoded conn
          = Some ([["set"; "a"; "1"]; ["ping"]; ["set"; "b"; "2"]]%string,
                  Stopped EOF)) as Hdec by (vm_compute; reflexivity).
  destruct (replay_reproduces_live id (register ∅ "set" setCommand "w") conn
              _ _ c' s' setTable_keeps_log setTable_by_args setTable_readers
              ltac:(vm_compute; reflexivity) Hdec
              ltac:(repeat (constructor; [vm_compute; reflexivity|]);
                    constructor)
              H) as (s2 & n & Hstart & Hk).
  exists c', s', s2, n. auto.
Defined.

(** ** Requests that are not complete, and quoted tokens *)

Lemma scanLF_from_absent (rest : list ascii) (i : Z) :
  LF ∉ rest → scanLF_from rest i = None.
Proof.
  revert i. induction rest as [|c rest IH]; intros i H; [reflexivity|].
  apply not_elem_of_cons in H as [H1 H2]. simpl.
  rewrite bool_decide_eq_false_2 by congruence. apply IH. exact H2.
Qed.

(** X17. With no line feed behind its first byte a buffer holds no
    command in either framing: the parser asks for more data and
    consumes nothing, whatever the bytes are. *)
Theorem no_line_end_needs_more (c : ascii) (data : list ascii) :
  LF ∉ data →
  readBufferedCommand (c :: data)
    = Done (moreData (negb (bool_decide (c = STAR)))).
Proof.
  intros H. unfold readBufferedCommand.
  assert (index (c :: data) 0 = Done c) as -> by reflexivity.
  assert (scanLF (c :: data) 1 = None) as Hs
    by (unfold scanLF; simpl; apply scanLF_from_absent; exact H).
  cbn [mbind exec_bind]. unfold mbind, exec_bind.
  case_bool_decide; cbn [negb].
  - rewrite Hs. reflexivity.
  - unfold readBufferedTelnetCommand. rewrite Hs. reflexivity.
Qed.

(** A multibulk header that stops at its carriage return. *)
Lemma no_line_end_needs_more_witness :
  readBufferedCommand (b "*2" ++ [CR]) = Done (moreData false).
Proof.
  apply (no_line_end_needs_more STAR (b "2" ++ [CR])).
  intros H. repeat (apply elem_of_cons in H as [H|H]; [discriminate|]).
  apply elem_of_nil in H. exact H.
Defined.

Lemma telnet_plain_run (w line rest : list ascii) (i : Z)
    (args : list string) (s : Z) (lspace q lq : bool) :
  DQ ∉ w → SP ∉ w →
  telnetArgsLoop line (w ++ rest) i args s lspace q lq =
  telnetArgsLoop line rest (i + len w) args s
    (match w with [] => lspace | _ => false end) q lq.
Proof.
  revert i lspace. induction w as [|c w IH]; intros i lspace Hq Hs.
  - simpl. replace (i + len []) with i by (unfold len; simpl; lia).
    reflexivity.
  - apply not_elem_of_cons in Hq as [Hq1 Hq2].
    apply not_elem_of_cons in Hs as [Hs1 Hs2].
    simpl. rewrite !bool_decide_eq_false_2 by congruence.
    rewrite IH by assumption.
    replace (i + 1 + len w) with (i + len (c :: w)) by len_eq.
    destruct w; reflexivity.
Qed.

Lemma spaces_cons (c : ascii) (t : list ascii) :
  spaces (c :: t) = (if bool_decide (c = SP) then 1 else 0) + spaces t.
Proof.
  unfold spaces. rewrite filter_cons.
  case_bool_decide as Hc; destruct (decide (c = SP)); try contradiction;
    unfold len; simpl length; lia.
Qed.

Lemma spaces_range (t : list ascii) : 0 <= spaces t <= len t.
Proof.
  induction t as [|c t IH]; [unfold spaces, len; simpl; lia|].
  rewrite spaces_cons. assert (len (c :: t) = 1 + len t) as -> by len_eq.
  case_bool_decide; lia.
Qed.

(** Behind a closed quoted token [lquote] stays set: a space moves the
    start of the next token one byte on and ends no token. *)
Lemma telnet_after_quote (t : list ascii) :
  ∀ (line : list ascii) (i : Z) (args : list string) (s : Z)
    (lspace : bool),
    DQ ∉ t → 0 <= s → s + spaces t <= len line →
    telnetArgsLoop line t i args s lspace false true
    = Done (if s + spaces t <? len line
            then args ++ [string_of_list_ascii
                            (drop (Z.to_nat (s + spaces t)) line)]
            else args, None).
Proof.
  induction t as [|c t IH]; intros line i args s lspace Hq Hs Hl.
  - assert (spaces [] = 0) as E by reflexivity. rewrite E in *.
    rewrite Z.add_0_r. cbn [telnetArgsLoop].
    destruct (s <? len line) eqn:Hlt; [|reflexivity].
    rewrite slice_in_range by lia. cbn.
    rewrite take_ge; [reflexivity|].
    rewrite length_drop. unfold len. lia.
  - apply not_elem_of_cons in Hq as [Hq1 Hq2].
    rewrite spaces_cons in *. pose proof (spaces_range t) as Hr.
    cbn [telnetArgsLoop]. rewrite bool_decide_eq_false_2 by congruence.
    case_bool_decide.
    + rewrite (IH line (i + 1) args (s + 1) lspace Hq2) by lia.
      replace (s + 1 + spaces t) with (s + (1 + spaces t)) by lia.
      reflexivity.
    + rewrite (IH line (i + 1) args s false Hq2) by lia.
      replace (s + (0 + spaces t)) with (s + spaces t) by lia.
      reflexivity.
Qed.

(** X18. A line that opens with a quoted token: the token is taken
    without its quotes, and behind it no space ends a token any more.
    Each space moves the start of the last token one byte on, so what
    follows the closing quote gives at most one further argument: the
    bytes behind as many leading bytes as there are spaces. *)
Theorem spaces_after_quoted_token (q t : list ascii) :
  DQ ∉ q → SP ∉ q → DQ ∉ t →
  parseArgsFromTelnetLine ([DQ] ++ q ++ [DQ] ++ t)
    = Done (string_of_list_ascii q ::
            (if spaces t <? len t
             then [string_of_list_ascii (drop (Z.to_nat (spaces t)) t)]
             else []), None).
Proof.
  intros Hq Hs Ht. unfold parseArgsFromTelnetLine.
  remember ([DQ] ++ q ++ [DQ] ++ t) as line eqn:Hline.
  assert (len line = len q + 2 + len t) as Hlen by (subst line; len_eq).
  pose proof (len_nonneg q) as Hq0. pose proof (spaces_range t) as Hr.
  rewrite Hline at 2. cbn [app telnetArgsLoop].
  rewrite bool_decide_eq_true_2 by reflexivity. cbn [negb].
  rewrite (telnet_plain_run q line (DQ :: t) (0 + 1) [] 0 false true false
             Hq Hs).
  cbn [telnetArgsLoop]. rewrite bool_decide_eq_true_2 by reflexivity.
  match goal with |- context [slice line ?lo ?hi] =>
    rewrite (slice_at line [DQ] q ([DQ] ++ t) lo hi)
      by (first [exact Hline | len_eq])
  end.
  unfold mbind, exec_bind.
  rewrite (telnet_after_quote t line _ _ (1 + len q + 1)) by (try assumption; lia).
  f_equal. f_equal.
  replace (1 + len q + 1 + spaces t <? len line) with (spaces t <? len t)
    by (rewrite Hlen; destruct (Z.ltb_spec (spaces t) (len t));
        symmetry; [apply Z.ltb_lt|apply Z.ltb_ge]; lia).
  destruct (spaces t <? len t); [|reflexivity].
  cbn [app]. do 3 f_equal.
  rewrite Hline.
  replace ([DQ] ++ q ++ [DQ] ++ t) with (([DQ] ++ q ++ [DQ]) ++ t) by list_eq.
  replace (Z.to_nat (1 + len q + 1 + spaces t))
    with (length ([DQ] ++ q ++ [DQ]) + Z.to_nat (spaces t))%nat
    by (rewrite !length_app; unfold len; simpl length; lia).
  rewrite drop_app_add. reflexivity.
Qed.

(** The line ["a" b c]: the space in front of [b] moves the start to
    [b], the one in front of [c] moves it to that very space. *)
Lemma spaces_after_quoted_token_witness :
  parseArgsFromTelnetLine ([DQ] ++ b "a" ++ [DQ] ++ b " b c")
  = Done (["a"; " c"]%string, None).
Proof.
  apply (spaces_after_quoted_token (b "a") (b " b c")).
  - intros H. repeat (apply elem_of_cons in H as [H|H]; [discriminate|]).
    apply elem_of_nil in H. exact H.
  - intros H. repeat (apply elem_of_cons in H as [H|H]; [discriminate|]).
    apply elem_of_nil in H. exact H.
  - intros H. repeat (apply elem_of_cons in H as [H|H]; [discriminate|]).
    apply elem_of_nil in H. exact H.
Defined.
